(** * Apprentice: scanner, parser and tree-walking interpreter

    A shallow embedding of [src/src/interpreter.rs], [src/src/scanner.rs],
    [src/src/token.rs] and [src/src/parser.rs].

    - [f64] is Rocq's primitive binary64 type [float] (IEEE 754, the same
      arithmetic and comparisons as Rust's [f64]).
    - [usize] line numbers are [nat], [i64] columns are [Z], strings are
      [string], byte vectors are [list ascii].
    - A method taking [&mut self] is a state transformer
      [S -> S * outcome E A]: the state is returned on every path, also when
      the method returns [Err], because Rust keeps the mutations made before
      the error.  A Rust panic ([unwrap] of [None], [todo!()], a failed
      [assert!], indexing out of range, [usize] underflow) is the outcome
      [Panic], distinct from a returned [Err].
    - Loops and the mutually recursive descent of the parser run on fuel;
      [NoFuel] is reported when the fuel runs out (the fuels chosen below are
      large enough for every input used). *)

From Stdlib Require Import Floats ZArith List Ascii String Uint63 Lia.
From stdpp Require Import base gmap strings pretty.

Import ListNotations.
Local Open Scope string_scope.

(* ------------------------------------------------------------------ *)
(** ** Outcomes and the state/error monad *)

Inductive outcome (E A : Type) : Type :=
| Ok (a : A)
| Err (e : E)
| Panic (msg : string)
| NoFuel.
Arguments Ok {E A} a.
Arguments Err {E A} e.
Arguments Panic {E A} msg.
Arguments NoFuel {E A}.

Definition M (S E A : Type) : Type := S -> S * outcome E A.

Definition ret {S E A} (a : A) : M S E A := fun s => (s, Ok a).
Definition throw {S E A} (e : E) : M S E A := fun s => (s, Err e).
Definition panic {S E A} (msg : string) : M S E A := fun s => (s, Panic msg).
Definition out_of_fuel {S E A} : M S E A := fun s => (s, NoFuel).
Definition gets {S E A} (f : S -> A) : M S E A := fun s => (s, Ok (f s)).
Definition modify {S E} (f : S -> S) : M S E unit := fun s => (f s, Ok tt).

Definition bind {S E A B} (m : M S E A) (k : A -> M S E B) : M S E B :=
  fun s =>
    match m s with
    | (s', Ok a) => k a s'
    | (s', Err e) => (s', Err e)
    | (s', Panic msg) => (s', Panic msg)
    | (s', NoFuel) => (s', NoFuel)
    end.

Notation "x <- m ;; k" := (bind m (fun x => k))
  (at level 62, m at next level, right associativity).
Notation "m ;;; k" := (bind m (fun _ => k))
  (at level 62, right associativity).

(** Lift a pure [Result] into the monad ([?] on a pure call). *)
Definition lift {S E A} (o : outcome E A) : M S E A := fun s => (s, o).

(** A call whose [Result] is kept as a value rather than propagated with
    [?]; a panic still unwinds. *)
Definition capture {S E E' A} (m : M S E A) : M S E' (outcome E A) :=
  fun s =>
    match m s with
    | (s', Panic msg) => (s', Panic msg)
    | (s', NoFuel) => (s', NoFuel)
    | (s', o) => (s', Ok o)
    end.

(** [Result::unwrap]. *)
Definition unwrap {S E E' A} (o : outcome E A) : M S E' A :=
  match o with
  | Ok a => ret a
  | Err _ => panic "called `Result::unwrap()` on an `Err` value"
  | Panic msg => panic msg
  | NoFuel => out_of_fuel
  end.

Definition todo_msg : string := "not yet implemented".
Definition oob_msg : string := "index out of bounds".

(* ------------------------------------------------------------------ *)
(** ** AST ([parser::exprstmt]) *)

Record Symbol := mkSymbol {
  name : string;
  sym_line : nat;
  sym_column : Z
}.

Module UniOpType.
Inductive t := Minus | Bang.
End UniOpType.

Record UnaryOp := mkUnaryOp {
  u_type : UniOpType.t;
  u_line : nat;
  u_column : Z
}.

Module BinOpType.
Inductive t :=
  | EqualEqual | NotEqual | Less | LessEqual | Greater | GreaterEqual
  | Add | Sub | Mult | Div.
End BinOpType.

Record BinaryOp := mkBinaryOp {
  b_type : BinOpType.t;
  b_line : nat;
  b_column : Z
}.

Module Literal.
Inductive t :=
  | Number (n : float)
  | String (s : string)
  | True
  | False
  | Null.
End Literal.

Module Expr.
Inductive t :=
  | Literal (l : Literal.t)
  | Unary (op : UnaryOp) (e : t)
  | Binary (left : t) (op : BinaryOp) (right : t)
  | Ternary (left middle right : t)
  | Assignment (sym : Symbol) (e : t)
  | Grouping (e : t)
  | Var (sym : Symbol).  (* [Expr::Variable]; [Variable] is a keyword *)
End Expr.

Module Stmt.
Inductive t :=
  | Expression (e : Expr.t)
  | Print (e : Expr.t)
  | VarDeclaration (sym : Symbol) (init : option Expr.t).
End Stmt.

(* ------------------------------------------------------------------ *)
(** ** Interpreter ([interpreter.rs]) *)

Module Value.
Inductive t :=
  | Number (n : float)
  | String (s : string)
  | Bool (b : bool)
  | Null.
End Value.

(** [HashMap<String, Option<Value>>]. *)
Record Environment := mkEnvironment {
  values : gmap string (option Value.t)
}.

Definition empty_env : Environment := mkEnvironment ∅.

Definition contains_key (env : Environment) (k : string) : bool :=
  bool_decide (is_Some (values env !! k)).

Definition define (env : Environment) (sym : Symbol) (value : option Value.t)
  : Environment :=
  mkEnvironment (<[name sym := value]> (values env)).

Definition assign (sym : Symbol) (val : Value.t) : M Environment string unit :=
  fun env =>
    if contains_key env (name sym)
    then (define env sym (Some val), Ok tt)
    else (env, Err "attempted to assign to an undefined variable").

(** [self.values[name].clone().unwrap()] once the key is known present. *)
Definition get (env : Environment) (nm : string) : outcome string Value.t :=
  if contains_key env nm then
    match values env !! nm with
    | Some (Some v) => Ok v
    | Some None => Panic "called `Option::unwrap()` on a `None` value"
    | None => Panic "key not found"
    end
  else Err ("Undefined variable " ++ nm).

(** [f64::EPSILON]. *)
Definition f64_epsilon : float := 0x1p-52%float.

Definition equals (lhs rhs : Value.t) : bool :=
  match lhs, rhs with
  | Value.Number n1, Value.Number n2 =>
      PrimFloat.ltb (PrimFloat.abs (PrimFloat.sub n1 n2)) f64_epsilon
  | Value.String s1, Value.String s2 => String.eqb s1 s2
  | Value.Bool b1, Value.Bool b2 => Bool.eqb b1 b2
  | Value.Null, Value.Null => true
  | _, _ => false
  end.

Definition interpret_literal (lit : Literal.t) : Value.t :=
  match lit with
  | Literal.Number n => Value.Number n
  | Literal.String s => Value.String s
  | Literal.True => Value.Bool true
  | Literal.False => Value.Bool false
  | Literal.Null => Value.Null
  end.

(** The [match] of [interpret_unary] once the operand is evaluated. *)
Definition apply_unary (op : UnaryOp) (val : Value.t) : outcome string Value.t :=
  match u_type op, val with
  | UniOpType.Minus, Value.Number n => Ok (Value.Number (PrimFloat.opp n))
  | UniOpType.Bang, Value.Bool b => Ok (Value.Bool (negb b))
  | UniOpType.Minus, _ => Err "NaN"
  | UniOpType.Bang, _ => Err "Not a boolean"
  end.

Definition div_by_zero_msg (line : nat) (column : Z) : string :=
  "[line: " ++ pretty line ++ " Column: " ++ pretty column
    ++ "] Can't divide by zero".

(** The [match (&l, op.b_type, &r)] of [interpret_binary], arm by arm in
    source order; the last arm is [Err(todo!())], whose [todo!()] panics
    before any [Err] is built. *)
Definition apply_binary (op : BinaryOp) (l r : Value.t) : outcome string Value.t :=
  match l, b_type op, r with
  | Value.Number a, BinOpType.Less, Value.Number b => Ok (Value.Bool (PrimFloat.ltb a b))
  | Value.Number a, BinOpType.LessEqual, Value.Number b => Ok (Value.Bool (PrimFloat.leb a b))
  | Value.Number a, BinOpType.Greater, Value.Number b => Ok (Value.Bool (PrimFloat.ltb b a))
  | Value.Number a, BinOpType.GreaterEqual, Value.Number b => Ok (Value.Bool (PrimFloat.leb b a))
  | Value.Number a, BinOpType.Sub, Value.Number b => Ok (Value.Number (PrimFloat.sub a b))
  | Value.Number a, BinOpType.Add, Value.Number b => Ok (Value.Number (PrimFloat.add a b))
  | Value.Number a, BinOpType.Mult, Value.Number b => Ok (Value.Number (PrimFloat.mul a b))
  | Value.Number a, BinOpType.Div, Value.Number b =>
      if PrimFloat.eqb b 0%float
      then Err (div_by_zero_msg (b_line op) (b_column op))
      else Ok (Value.Number (PrimFloat.div a b))
  | Value.String a, BinOpType.Add, Value.String b => Ok (Value.String (a ++ b))
  | _, BinOpType.EqualEqual, _ => Ok (Value.Bool (equals l r))
  | _, BinOpType.NotEqual, _ => Ok (Value.Bool (equals l r))
  | _, _, _ => Panic todo_msg
  end.

Fixpoint interpret_expr (e : Expr.t) : M Environment string Value.t :=
  match e with
  | Expr.Literal lit => ret (interpret_literal lit)
  | Expr.Grouping e => interpret_expr e
  | Expr.Unary op e =>
      val <- interpret_expr e ;;
      lift (apply_unary op val)
  | Expr.Binary lhs op rhs =>
      l <- interpret_expr lhs ;;
      r <- interpret_expr rhs ;;
      lift (apply_binary op l r)
  | Expr.Ternary _ _ _ => panic todo_msg
  | Expr.Var sym => fun env => (env, get env (name sym))
  | Expr.Assignment sym e =>
      val <- interpret_expr e ;;
      assign sym val ;;;
      ret val
  end.

(** The interpreter's state: its environment and the values printed so
    far (each [println!("{v}")] appends [v]; its textual rendering is
    [Display for Value]). *)
Record State := mkState {
  env : Environment;
  output : list Value.t
}.

Definition on_env {A} (m : M Environment string A) : M State string A :=
  fun st =>
    let (env', o) := m (env st) in (mkState env' (output st), o).

Definition emit (v : Value.t) : M State string unit :=
  modify (fun st => mkState (env st) (output st ++ [v])).

Definition execute (stmt : Stmt.t) : M State string unit :=
  match stmt with
  | Stmt.Print e =>
      v <- on_env (interpret_expr e) ;;
      emit v
  | Stmt.Expression e =>
      _ <- on_env (interpret_expr e) ;;
      ret tt
  | Stmt.VarDeclaration s e =>
      val <- match e with
             | Some expr => v <- on_env (interpret_expr expr) ;; ret (Some v)
             | None => ret None
             end ;;
      modify (fun st => mkState (define (env st) s val) (output st))
  end.

Fixpoint interpret_stmts (stmts : list Stmt.t) : M State string unit :=
  match stmts with
  | [] => ret tt
  | stmt :: rest => execute stmt ;;; interpret_stmts rest
  end.

(** [pub fn interpret]: a fresh environment, nothing printed yet. *)
Definition interpret (stmts : list Stmt.t) : State * outcome string unit :=
  interpret_stmts stmts (mkState empty_env []).

(* ------------------------------------------------------------------ *)
(** ** Loops on fuel *)

Fixpoint while_fuel {St E} (fuel : nat) (cond : M St E bool) (body : M St E unit)
  : M St E unit :=
  match fuel with
  | O => out_of_fuel
  | S f => b <- cond ;; if b then body ;;; while_fuel f cond body else ret tt
  end.

(** [source[a..b]]: panics unless [a <= b <= len]. *)
Definition slice {A} (l : list A) (a b : nat) : option (list A) :=
  if (a <=? b)%nat && (b <=? length l)%nat
  then Some (firstn (b - a) (skipn a l)) else None.

(* ------------------------------------------------------------------ *)
(** ** Scanner ([scanner.rs], with its own [TokenType], [Literal],
    [Token] and [Error]) *)

Module Scanner.

Inductive TokenType :=
| LeftParen | RightParen | LeftBracket | RightBracket | LeftBrace | RightBrace
| Comma | Dot | Minus | Plus | Semicolon | Slash | Star
| Bang | BangEqual | Equal | EqualEqual | Greater | GreaterEqual | Less | LessEqual
| Identifier | String | Int | Float
| And | Class | Else | False | Func | For | If | Null | Or | Print | Return
| This | True | Var | While
| Eof.

Inductive Literal :=
| LIdentifier (s : string)
| Str (s : string)
| LInt (n : N)
| LFloat (f : float).

Record Token := mkToken {
  token_type : TokenType;
  lexeme : list ascii;
  literal : option Literal;
  t_line : nat;
  t_column : Z
}.

Record Error := mkError {
  what : string;
  e_line : nat;
  e_column : Z
}.

(** The scanner's fields except [keywords], which [scan_token] never
    consults. *)
Record Scanner := mkScanner {
  source : list ascii;
  tokens : list Token;
  err : option Error;
  start : nat;
  current : nat;
  line : nat;
  column : Z
}.

Definition default : Scanner := mkScanner [] [] None 0 0 1 (-1).

Definition SM (A : Type) : Type := M Scanner Empty_set A.

Definition set_source (src : list ascii) : SM unit :=
  modify (fun s => mkScanner src (tokens s) (err s) (start s) (current s) (line s) (column s)).
Definition set_start (n : nat) : SM unit :=
  modify (fun s => mkScanner (source s) (tokens s) (err s) n (current s) (line s) (column s)).
Definition set_pos (cur : nat) (col : Z) : SM unit :=
  modify (fun s => mkScanner (source s) (tokens s) (err s) (start s) cur (line s) col).
Definition set_line (ln : nat) : SM unit :=
  modify (fun s => mkScanner (source s) (tokens s) (err s) (start s) (current s) ln (column s)).
Definition set_column (col : Z) : SM unit :=
  modify (fun s => mkScanner (source s) (tokens s) (err s) (start s) (current s) (line s) col).
Definition set_err (e : Error) : SM unit :=
  modify (fun s => mkScanner (source s) (tokens s) (Some e) (start s) (current s) (line s) (column s)).
Definition push_token (t : Token) : SM unit :=
  modify (fun s => mkScanner (source s) (tokens s ++ [t]) (err s) (start s) (current s) (line s) (column s)).

Definition sloop (cond : SM bool) (body : SM unit) : SM unit :=
  fun s => while_fuel (S (length (source s))) cond body s.

Definition nul : ascii := Ascii.ascii_of_nat 0.
Definition quote : ascii := Ascii.ascii_of_nat 34.
Definition backslash : ascii := Ascii.ascii_of_nat 92.
Definition newline : ascii := Ascii.ascii_of_nat 10.

Definition is_ascii_digit (c : ascii) : bool :=
  let n := Ascii.nat_of_ascii c in ((48 <=? n) && (n <=? 57))%nat.

Definition is_at_end : SM bool :=
  gets (fun s => (length (source s) <=? current s)%nat).

Definition peek : SM ascii :=
  gets (fun s => if (length (source s) <=? current s)%nat then nul
                 else nth (current s) (source s) nul).

Definition peek_next : SM ascii :=
  gets (fun s => if (length (source s) <=? current s + 1)%nat then nul
                 else nth (current s + 1) (source s) nul).

Definition advance : SM ascii :=
  s <- gets id ;;
  set_pos (current s + 1) (column s + 1) ;;;
  match nth_error (source s) (current s) with
  | Some c => ret c
  | None => panic oob_msg
  end.

(** Returns [true] at the end of the input, otherwise consumes the next
    character when it is [c]. *)
Definition matches (c : ascii) : SM bool :=
  e <- is_at_end ;;
  if e then ret true else
  s <- gets id ;;
  if negb (Ascii.eqb (nth (current s) (source s) nul) c) then ret false else
  set_pos (current s + 1) (column s + 1) ;;;
  ret true.

Definition add_token_literal (tt : TokenType) (lit : option Literal) : SM unit :=
  s <- gets id ;;
  match slice (source s) (start s) (current s) with
  | Some text => push_token (mkToken tt text lit (line s) (column s))
  | None => panic oob_msg
  end.

Definition add_token (tt : TokenType) : SM unit := add_token_literal tt None.

(** [Scanner::string]. *)
Definition string_ : SM unit :=
  sloop (p <- peek ;;
         if Ascii.eqb p quote then ret false else
         e <- is_at_end ;; ret (negb e))
        (p <- peek ;;
         if Ascii.eqb p backslash then panic todo_msg else
         (if Ascii.eqb p newline then s <- gets id ;; set_line (line s + 1)
          else ret tt) ;;;
         _ <- advance ;; ret tt) ;;;
  e <- is_at_end ;;
  (if e then s <- gets id ;;
             set_err (mkError "String needs to be closed" (line s) (column s))
   else ret tt) ;;;
  p <- peek ;;
  if negb (Ascii.eqb p quote)
  then panic "assertion failed: self.peek() == quote"
  else
  _ <- advance ;;
  s <- gets id ;;
  match slice (source s) (start s + 1) (current s - 1) with
  | Some text => add_token_literal String (Some (Str (string_of_list_ascii text)))
  | None => panic oob_msg
  end.

(** [str::parse::<u64>] on a run of ASCII digits; [None] on overflow. *)
Definition parse_u64 (digits : list ascii) : option N :=
  let n := fold_left (fun acc c => (10 * acc + N.of_nat (Ascii.nat_of_ascii c - 48))%N)
                     digits 0%N in
  if (n <? 2 ^ 64)%N then Some n else None.

Section Numbers.
(** [str::parse::<f64>] (correctly rounded decimal conversion); only
    reached on a scanned [digits.digits] lexeme. *)
Variable parse_f64 : string -> float.

Definition skip_digits : SM unit :=
  sloop (p <- peek ;; ret (is_ascii_digit p)) (_ <- advance ;; ret tt).

Definition number : SM unit :=
  skip_digits ;;;
  p <- peek ;;
  pn <- peek_next ;;
  int <- (if Ascii.eqb p "."%char && is_ascii_digit pn then
            _ <- advance ;;
            skip_digits ;;;
            s <- gets id ;;
            match slice (source s) (start s) (current s) with
            | Some text =>
                add_token_literal Float (Some (LFloat (parse_f64 (string_of_list_ascii text)))) ;;;
                ret false
            | None => panic oob_msg
            end
          else ret true) ;;
  if int then
    s <- gets id ;;
    match slice (source s) (start s) (current s) with
    | Some text =>
        match parse_u64 text with
        | Some n => add_token_literal Int (Some (LInt n))
        | None => panic "called `Result::unwrap()` on an `Err` value"
        end
    | None => panic oob_msg
    end
  else ret tt.

Definition scan_token : SM unit :=
  c <- advance ;;
  let one tt := add_token tt in
  let two tt2 tt1 := m <- matches "="%char ;; add_token (if m then tt2 else tt1) in
  if Ascii.eqb c "("%char then one LeftParen
  else if Ascii.eqb c ")"%char then one RightParen
  else if Ascii.eqb c "{"%char then one LeftBrace
  else if Ascii.eqb c "}"%char then one RightBrace
  else if Ascii.eqb c "["%char then one LeftBracket
  else if Ascii.eqb c "]"%char then one RightBracket
  else if Ascii.eqb c ","%char then one Comma
  else if Ascii.eqb c "."%char then one Dot
  else if Ascii.eqb c "-"%char then one Minus
  else if Ascii.eqb c "+"%char then one Plus
  else if Ascii.eqb c ";"%char then one Semicolon
  else if Ascii.eqb c "*"%char then one Star
  else if Ascii.eqb c "!"%char then two BangEqual Bang
  else if Ascii.eqb c "="%char then two EqualEqual Equal
  else if Ascii.eqb c "<"%char then two LessEqual Less
  else if Ascii.eqb c ">"%char then two GreaterEqual Greater
  else if Ascii.eqb c "/"%char then
    m <- matches "/"%char ;;
    if m then
      sloop (p <- peek ;; ret (negb (Ascii.eqb p newline))) (_ <- advance ;; ret tt)
    else add_token Slash
  else if Ascii.eqb c " "%char || Ascii.eqb c (Ascii.ascii_of_nat 13)
          || Ascii.eqb c (Ascii.ascii_of_nat 9) then ret tt
  else if Ascii.eqb c newline then
    s <- gets id ;; set_line (line s + 1) ;;; set_column 0
  else if Ascii.eqb c quote then string_
  else if is_ascii_digit c then number
  else
    s <- gets id ;;
    set_err (mkError ("Invalid character found: " ++ String.String c EmptyString)
                     (line s) (column s)).

(** Returns its local, always empty, [tokens] vector; the scanned tokens
    are in the scanner's state. *)
Definition scan_tokens (input : string) : SM (list Token) :=
  set_source (list_ascii_of_string input) ;;;
  sloop (e <- is_at_end ;; ret (negb e))
        (s <- gets id ;; set_start (current s) ;;; scan_token) ;;;
  s <- gets id ;;
  push_token (mkToken Eof [] None (line s) (column s)) ;;;
  ret [].

Definition scan (input : string) : outcome Error (list Token) :=
  match scan_tokens input default with
  | (s, Ok _) =>
      match err s with
      | Some e => Err e
      | None => Ok (tokens s)
      end
  | (_, Err e) => match e with end
  | (_, Panic msg) => Panic msg
  | (_, NoFuel) => NoFuel
  end.

End Numbers.

End Scanner.

(* ------------------------------------------------------------------ *)
(** ** Tokens as the parser reads them ([token.rs]) *)

Module Token.

Inductive TokenType :=
| LeftParen | RightParen | LeftBracket | RightBracket | LeftBrace | RightBrace
| Comma | Dot | Minus | Plus | Semicolon | Slash | Star
| Bang | BangEqual | Equal | EqualEqual | Greater | GreaterEqual | Less | LessEqual
| Identifier | String | Number
| And | Class | Else | False | Func | For | If | Null | Or | Print | Return
| This | True | Var | While
| Eof.

Scheme Equality for TokenType.

Inductive Literal :=
| LIdentifier (s : string)
| Str (s : string)
| Num (n : N).

Record Token := mkToken {
  token_type : TokenType;
  lexeme : list ascii;
  literal : option Literal;
  t_line : nat;
  t_column : Z
}.

End Token.

(* ------------------------------------------------------------------ *)
(** ** Parser ([parser.rs]) *)

Module Parser.
Import Token.

Inductive SyntaxError :=
| UnexpectedToken (t : Token)
| TokenMismatch (expected : TokenType) (found : Token) (maybe_err : option string)
| InvalidTokenInBinaryOp (tt : TokenType) (line : nat) (column : Z)
| InvalidTokenInUnaryOp (tt : TokenType) (line : nat) (column : Z)
| ExpectedExpression (tt : TokenType) (line : nat) (column : Z)
| InvalidAssignment (line : nat) (column : Z).

Record Parser := mkParser {
  ptokens : list Token;
  pcurrent : nat
}.

Definition PM (A : Type) : Type := M Parser SyntaxError A.

(** [&self.tokens[self.current]]. *)
Definition peek : PM Token :=
  fun p => match nth_error (ptokens p) (pcurrent p) with
           | Some t => (p, Ok t)
           | None => (p, Panic oob_msg)
           end.

(** [&self.tokens[self.current - 1]]. *)
Definition previous : PM Token :=
  fun p => match pcurrent p with
           | O => (p, Panic "attempt to subtract with overflow")
           | S i => match nth_error (ptokens p) i with
                    | Some t => (p, Ok t)
                    | None => (p, Panic oob_msg)
                    end
           end.

Definition is_at_end : PM bool :=
  t <- peek ;; ret (TokenType_beq (token_type t) Eof).

Definition check (t : TokenType) : PM bool :=
  e <- is_at_end ;;
  if e then ret false else
  p <- peek ;; ret (TokenType_beq (token_type p) t).

Definition advance : PM Token :=
  e <- is_at_end ;;
  (if e then ret tt
   else modify (fun p => mkParser (ptokens p) (S (pcurrent p)))) ;;;
  previous.

Definition matches (t : TokenType) : PM bool :=
  c <- check t ;;
  if c then _ <- advance ;; ret true else ret false.

Fixpoint match_one_of (types : list TokenType) : PM bool :=
  match types with
  | [] => ret false
  | t :: rest => m <- matches t ;; if m then ret true else match_one_of rest
  end.

Definition consume (t : TokenType) (message : string) : PM Token :=
  c <- check t ;;
  if c then advance else
  p <- peek ;; throw (TokenMismatch t p (Some message)).

Definition op_token_to_binop (op : Token) : outcome SyntaxError BinaryOp :=
  let mk b := Ok (mkBinaryOp b (t_line op) (t_column op)) in
  match token_type op with
  | EqualEqual => mk BinOpType.EqualEqual
  | BangEqual => mk BinOpType.NotEqual
  | Less => mk BinOpType.Less
  | LessEqual => mk BinOpType.LessEqual
  | Greater => mk BinOpType.Greater
  | GreaterEqual => mk BinOpType.GreaterEqual
  | Plus => mk BinOpType.Add
  | Minus => mk BinOpType.Sub
  | Star => mk BinOpType.Mult
  | Slash => mk BinOpType.Div
  | other => Err (InvalidTokenInBinaryOp other (t_line op) (t_column op))
  end.

Definition op_token_to_uniop (op : Token) : outcome SyntaxError UnaryOp :=
  match token_type op with
  | Bang => Ok (mkUnaryOp UniOpType.Bang (t_line op) (t_column op))
  | Minus => Ok (mkUnaryOp UniOpType.Minus (t_line op) (t_column op))
  | other => Err (InvalidTokenInUnaryOp other (t_line op) (t_column op))
  end.

(** [expr as f64] for the [u64] payload of a number token: correctly
    rounded below [2^63] by [of_uint63]; above, halving with a sticky low
    bit keeps the rounding of the 64-bit value. *)
Definition u64_to_f64 (n : N) : float :=
  if (n <? 2 ^ 63)%N
  then PrimFloat.of_uint63 (Uint63.of_Z (Z.of_N n))
  else PrimFloat.mul 2%float
         (PrimFloat.of_uint63 (Uint63.of_Z (Z.of_N (N.lor (N.div2 n) (n mod 2))))).

(** The [while self.match_one_of(..)] loop shared by [equality],
    [comparison], [term] and [factor]: each matched operator folds the
    accumulated [expr] in as the left operand. *)
Fixpoint binary_loop (fuel : nat) (ops : list TokenType) (operand : PM Expr.t)
    (expr : Expr.t) : PM Expr.t :=
  match fuel with
  | O => out_of_fuel
  | S f =>
      m <- match_one_of ops ;;
      if m then
        operator <- previous ;;
        rhs <- operand ;;
        binop <- lift (op_token_to_binop operator) ;;
        binary_loop f ops operand (Expr.Binary expr binop rhs)
      else ret expr
  end.

Definition binary_level (ops : list TokenType) (operand : PM Expr.t) : PM Expr.t :=
  expr <- operand ;;
  fun p => binary_loop (S (length (ptokens p))) ops operand expr p.

Definition factor (unary : PM Expr.t) : PM Expr.t :=
  binary_level [Star; Slash] unary.
Definition term (unary : PM Expr.t) : PM Expr.t :=
  binary_level [Plus; Minus] (factor unary).
Definition comparison (unary : PM Expr.t) : PM Expr.t :=
  binary_level [Less; LessEqual; Greater; GreaterEqual] (term unary).
Definition equality (unary : PM Expr.t) : PM Expr.t :=
  binary_level [EqualEqual; BangEqual] (comparison unary).

(** [assignment]; its recursive [self.assignment()] is [expression]. *)
Definition assignment (expression unary : PM Expr.t) : PM Expr.t :=
  expr <- equality unary ;;
  m <- matches Equal ;;
  if m then
    equals <- previous ;;
    value <- expression ;;
    match expr with
    | Expr.Var sym => ret (Expr.Assignment sym value)
    | _ => throw (InvalidAssignment (t_line equals) (t_column equals))
    end
  else ret expr.

Definition primary (expression : PM Expr.t) : PM Expr.t :=
  m <- matches Token.False ;; if m then ret (Expr.Literal Literal.False) else
  m <- matches Token.True ;; if m then ret (Expr.Literal Literal.True) else
  m <- matches Token.Null ;; if m then ret (Expr.Literal Literal.Null) else
  m <- matches Token.Number ;;
  if m then
    prev <- previous ;;
    match literal prev with
    | Some (Num n) => ret (Expr.Literal (Literal.Number (u64_to_f64 n)))
    | Some _ => panic "internal error in parser: when parsing number, found literal"
    | None => panic "internal error in parser: when parsing number, found no literal"
    end
  else
  m <- matches Token.String ;;
  if m then
    prev <- previous ;;
    match literal prev with
    | Some (Str s) => ret (Expr.Literal (Literal.String s))
    | Some _ => panic "parser internal error: when parsing string, found literal"
    | None => panic "parser internal error: when parsing string, found no literal"
    end
  else
  m <- matches Identifier ;;
  if m then
    prev <- previous ;;
    match literal prev with
    | Some (LIdentifier s) => ret (Expr.Var (mkSymbol s (t_line prev) (t_column prev)))
    | Some _ => panic "parser internal error: when parsing identifier, found literal"
    | None => panic "parser internal error: when parsing identifier, found no literal"
    end
  else
  m <- matches LeftParen ;;
  if m then
    expr <- expression ;;
    _ <- consume RightParen "Expected ')' after expression" ;;
    ret (Expr.Grouping expr)
  else
  p <- peek ;;
  throw (ExpectedExpression (token_type p) (t_line p) (t_column p)).

(** One step of [unary]: the [while] returns in its first iteration. *)
Definition unary_step (unary expression : PM Expr.t) : PM Expr.t :=
  m <- match_one_of [Minus; Bang] ;;
  if m then
    operator <- previous ;;
    rhs <- unary ;;
    uniop <- lift (op_token_to_uniop operator) ;;
    ret (Expr.Unary uniop rhs)
  else primary expression.

Fixpoint expression (fuel : nat) : PM Expr.t :=
  match fuel with
  | O => out_of_fuel
  | S f => assignment (expression f) (unary f)
  end
with unary (fuel : nat) : PM Expr.t :=
  match fuel with
  | O => out_of_fuel
  | S f => unary_step (unary f) (expression f)
  end.

(** Each nesting level consumes a token, so the depth is bounded by the
    length of the token vector. *)
Definition expr_fuel (p : Parser) : nat := 2 * length (ptokens p) + 2.

Definition expression_top : PM Expr.t := fun p => expression (expr_fuel p) p.

(** [self.consume(..)] whose [Result] is dropped (no [?]). *)
Definition var_declaration : PM Stmt.t :=
  nm <- consume Identifier "Expected variable name." ;;
  initializer <- (m <- matches Equal ;;
                  if m then e <- expression_top ;; ret (Some e) else ret None) ;;
  _ <- capture (consume Semicolon "Expected ';' after variable declaration.") ;;
  ret (Stmt.VarDeclaration
         (mkSymbol (string_of_list_ascii (lexeme nm)) (t_line nm) (t_column nm))
         initializer).

Definition print_statement : PM Stmt.t :=
  val <- capture expression_top ;;
  _ <- consume Semicolon "Expected ';'" ;;
  v <- unwrap val ;;
  ret (Stmt.Print v).

Definition expression_statement : PM Stmt.t :=
  val <- capture expression_top ;;
  _ <- consume Semicolon "Expected ';'" ;;
  v <- unwrap val ;;
  ret (Stmt.Expression v).

Definition statement : PM Stmt.t :=
  m <- matches Print ;;
  if m then print_statement else expression_statement.

Definition declaration : PM Stmt.t :=
  m <- matches Var ;;
  if m then var_declaration else statement.

(** [Parser::parse]: [while !self.is_at_end() { statements.push(self.declaration()?) }]. *)
Fixpoint parse_loop (fuel : nat) (statements : list Stmt.t) : PM (list Stmt.t) :=
  match fuel with
  | O => out_of_fuel
  | S f =>
      e <- is_at_end ;;
      if e then ret statements else
      s <- declaration ;;
      parse_loop f (statements ++ [s])
  end.

Definition parse_stmts : PM (list Stmt.t) :=
  fun p => parse_loop (S (length (ptokens p))) [] p.

(** [pub fn parse]. *)
Definition parse (tokens : list Token) : outcome SyntaxError (list Stmt.t) :=
  match parse_stmts (mkParser tokens 0) with
  | (p, Ok result) =>
      match is_at_end p with
      | (_, Ok true) => Ok result
      | (_, Ok false) =>
          match nth_error (ptokens p) (pcurrent p) with
          | Some t => Err (UnexpectedToken t)
          | None => Panic oob_msg
          end
      | (_, Err e) => Err e
      | (_, Panic msg) => Panic msg
      | (_, NoFuel) => NoFuel
      end
  | (_, Err e) => Err e
  | (_, Panic msg) => Panic msg
  | (_, NoFuel) => NoFuel
  end.

End Parser.

(* ------------------------------------------------------------------ *)
(** ** Entry point ([main.rs] [run]) up to its call of [parser::parse] *)

(** [report] panics with the formatted diagnostic. *)
Definition report (line : nat) (column : Z) (place message : string)
  : outcome Empty_set unit :=
  Panic ("[line: " ++ pretty line ++ ", column: " ++ pretty column ++ "] Error "
         ++ place ++ ": " ++ message).

Definition error (line : nat) (column : Z) (message : string) : outcome Empty_set unit :=
  report line column "" message.

(** The token vector [run] hands to [parser::parse]: the scanned tokens,
    or, after a scan error has been reported, the empty vector it started
    with.  (The scan error's text is the scanner's [what] field.) *)
Definition run_tokens (parse_f64 : string -> float) (code : string)
  : outcome Empty_set (list Scanner.Token) :=
  match Scanner.scan parse_f64 code with
  | Ok toks => Ok toks
  | Err e =>
      match error (Scanner.e_line e) (Scanner.e_column e) (Scanner.what e) with
      | Ok _ => Ok []
      | Err v => match v with end
      | Panic msg => Panic msg
      | NoFuel => NoFuel
      end
  | Panic msg => Panic msg
  | NoFuel => NoFuel
  end.

(* ------------------------------------------------------------------ *)
(** ** Helpers for stating properties *)

(** The literal that evaluates to a given value. *)
Definition value_literal (v : Value.t) : Literal.t :=
  match v with
  | Value.Number n => Literal.Number n
  | Value.String s => Literal.String s
  | Value.Bool true => Literal.True
  | Value.Bool false => Literal.False
  | Value.Null => Literal.Null
  end.

Definition value_kind (v : Value.t) : nat :=
  match v with
  | Value.Number _ => 0
  | Value.String _ => 1
  | Value.Bool _ => 2
  | Value.Null => 3
  end.

Definition scan_kinds (parse_f64 : string -> float) (input : string)
  : outcome Scanner.Error (list Scanner.TokenType) :=
  match Scanner.scan parse_f64 input with
  | Ok toks => Ok (map Scanner.token_type toks)
  | Err e => Err e
  | Panic msg => Panic msg
  | NoFuel => NoFuel
  end.

Definition num (f : float) : Expr.t := Expr.Literal (Literal.Number f).
Definition binop (k : BinOpType.t) (col : Z) : BinaryOp := mkBinaryOp k 1 col.

(** A token on line 1, as the scanner would produce it. *)
Definition tok (k : Token.TokenType) (lx : string) (lit : option Token.Literal) (col : Z)
  : Token.Token :=
  Token.mkToken k (list_ascii_of_string lx) lit 1 col.

Definition num_tok (n : N) (lx : string) (col : Z) : Token.Token :=
  tok Token.Number lx (Some (Token.Num n)) col.

Definition eof_tok (col : Z) : Token.Token := tok Token.Eof "" None col.

(** [var x; print x;] *)
Definition sym_x : Symbol := mkSymbol "x" 1 4.
Definition prog_var_x_print_x : list Stmt.t :=
  [Stmt.VarDeclaration sym_x None; Stmt.Print (Expr.Var sym_x)].

(** ["a" + 1;] *)
Definition prog_string_plus_number : list Stmt.t :=
  [Stmt.Expression (Expr.Binary (Expr.Literal (Literal.String "a"))
                                (binop BinOpType.Add 4) (num 1))].

(** The tokens of [var x = 1] with no [;]. *)
Definition toks_var_x_eq_1 : list Token.Token :=
  [tok Token.Var "var" None 2; tok Token.Identifier "x" (Some (Token.LIdentifier "x")) 4;
   tok Token.Equal "=" None 6; num_tok 1 "1" 8; eof_tok 8].

(** The tokens of [1 + 2 * 3] and of [1 - 2 - 3]. *)
Definition toks_1_plus_2_times_3 : list Token.Token :=
  [num_tok 1 "1" 0; tok Token.Plus "+" None 2; num_tok 2 "2" 4;
   tok Token.Star "*" None 6; num_tok 3 "3" 8; eof_tok 8].
Definition toks_1_minus_2_minus_3 : list Token.Token :=
  [num_tok 1 "1" 0; tok Token.Minus "-" None 2; num_tok 2 "2" 4;
   tok Token.Minus "-" None 6; num_tok 3 "3" 8; eof_tok 8].

Definition parse_expression (toks : list Token.Token) : outcome Parser.SyntaxError Expr.t :=
  snd (Parser.expression_top (Parser.mkParser toks 0)).

Definition eval (e : Expr.t) : outcome string Value.t := snd (interpret_expr e empty_env).

(** The source text of an unterminated string literal: a double quote
    followed by [abc]. *)
Definition unterminated_abc : string := String.String Scanner.quote "abc".

Definition rparen_tok : Token.Token := tok Token.RightParen ")" None 0.

(** Chains [n0 op1 n1 ... opk nk]: the expression a number token parses
    to, the operators of the [term] and [factor] levels, and the left fold
    that takes the accumulated expression as the left operand each time. *)
Definition number_literal (t : Token.Token) : Expr.t :=
  match Token.literal t with
  | Some (Token.Num n) => Expr.Literal (Literal.Number (Parser.u64_to_f64 n))
  | _ => Expr.Literal Literal.Null
  end.

Definition is_number_token (t : Token.Token) : Prop :=
  Token.token_type t = Token.Number /\ exists n, Token.literal t = Some (Token.Num n).

Definition additive_op (k : Token.TokenType) : option BinOpType.t :=
  match k with
  | Token.Plus => Some BinOpType.Add
  | Token.Minus => Some BinOpType.Sub
  | _ => None
  end.

Definition multiplicative_op (k : Token.TokenType) : option BinOpType.t :=
  match k with
  | Token.Star => Some BinOpType.Mult
  | Token.Slash => Some BinOpType.Div
  | _ => None
  end.

Fixpoint flatten_chain (chain : list (Token.Token * Token.Token)) : list Token.Token :=
  match chain with
  | [] => []
  | (o, t) :: rest => o :: t :: flatten_chain rest
  end.

Definition left_fold (kind : Token.TokenType -> option BinOpType.t) (acc : Expr.t)
    (chain : list (Token.Token * Token.Token)) : Expr.t :=
  fold_left (fun acc ot =>
               match kind (Token.token_type (fst ot)) with
               | Some k =>
                   Expr.Binary acc
                     (mkBinaryOp k (Token.t_line (fst ot)) (Token.t_column (fst ot)))
                     (number_literal (snd ot))
               | None => acc
               end) chain acc.

Definition chain_ok (kind : Token.TokenType -> option BinOpType.t)
    (chain : list (Token.Token * Token.Token)) : Prop :=
  Forall (fun ot => kind (Token.token_type (fst ot)) <> None /\ is_number_token (snd ot))
         chain.


(* ------------------------------------------------------------------ *)
(** ** [utils/print_ast.rs] *)

(** [Display for UniOpType]. *)
Definition display_uniop (k : UniOpType.t) : string :=
  match k with
  | UniOpType.Minus => "-"
  | UniOpType.Bang => "!"
  end.

(** [Display for BinOpType]. *)
Definition display_binop (k : BinOpType.t) : string :=
  match k with
  | BinOpType.EqualEqual => "=="
  | BinOpType.NotEqual => "!="
  | BinOpType.Less => "<"
  | BinOpType.LessEqual => "<="
  | BinOpType.Greater => ">"
  | BinOpType.GreaterEqual => ">="
  | BinOpType.Add => "+"
  | BinOpType.Sub => "-"
  | BinOpType.Mult => "*"
  | BinOpType.Div => "/"
  end.

Module PrintAst.

Section Format.
(** [Display for f64]. *)
Variable display_f64 : float -> string.

(** [Display for Literal]. *)
Definition display_literal (l : Literal.t) : string :=
  match l with
  | Literal.Number n => display_f64 n
  | Literal.String s => s
  | Literal.True => "true"
  | Literal.False => "false"
  | Literal.Null => "null"
  end.

Definition then_ {A B} (o : outcome Empty_set A) (k : A -> outcome Empty_set B)
  : outcome Empty_set B :=
  match o with
  | Ok a => k a
  | Err e => match e with end
  | Panic msg => Panic msg
  | NoFuel => NoFuel
  end.

(** [print_ast::format], with [parenthesize], [parenthesize_bin] and
    [parenthesize_tri] inlined; the arguments of [format!] are formatted
    left to right. *)
Fixpoint format (e : Expr.t) : outcome Empty_set string :=
  match e with
  | Expr.Grouping e => then_ (format e) (fun s => Ok ("(group " ++ s ++ ")"))
  | Expr.Unary op e =>
      then_ (format e) (fun s => Ok ("(" ++ display_uniop (u_type op) ++ " " ++ s ++ ")"))
  | Expr.Binary l op r =>
      then_ (format l) (fun sl =>
      then_ (format r) (fun sr =>
        Ok ("(" ++ sl ++ " " ++ display_binop (b_type op) ++ " " ++ sr ++ ")")))
  | Expr.Ternary b i e =>
      then_ (format b) (fun sb =>
      then_ (format i) (fun si =>
      then_ (format e) (fun se =>
        Ok ("(" ++ sb ++ " ? " ++ si ++ " : " ++ se ++ ")"))))
  | Expr.Literal v => Ok (display_literal v)
  | Expr.Var _ => Panic todo_msg
  | Expr.Assignment _ _ => Panic todo_msg
  end.

End Format.

End PrintAst.

Fixpoint has_variable_node (e : Expr.t) : bool :=
  match e with
  | Expr.Literal _ => false
  | Expr.Unary _ e | Expr.Grouping e => has_variable_node e
  | Expr.Binary l _ r => has_variable_node l || has_variable_node r
  | Expr.Ternary a b c => has_variable_node a || has_variable_node b || has_variable_node c
  | Expr.Var _ | Expr.Assignment _ _ => true
  end.

(* ------------------------------------------------------------------ *)
(** ** Helpers for the scanner properties *)

(** The token kinds [scan_token] can push: no [Eof], no [Identifier],
    no keyword. *)
Definition scanned_kind (k : Scanner.TokenType) : bool :=
  match k with
  | Scanner.LeftParen | Scanner.RightParen | Scanner.LeftBracket | Scanner.RightBracket
  | Scanner.LeftBrace | Scanner.RightBrace | Scanner.Comma | Scanner.Dot
  | Scanner.Minus | Scanner.Plus | Scanner.Semicolon | Scanner.Slash | Scanner.Star
  | Scanner.Bang | Scanner.BangEqual | Scanner.Equal | Scanner.EqualEqual
  | Scanner.Greater | Scanner.GreaterEqual | Scanner.Less | Scanner.LessEqual
  | Scanner.String | Scanner.Int | Scanner.Float => true
  | _ => false
  end.

Definition spres {A} (Inv : Scanner.Scanner -> Prop) (m : Scanner.SM A) : Prop :=
  forall s s' a, Inv s -> m s = (s', Ok a) -> Inv s'.

(** [char::is_ascii_alphabetic]. *)
Definition is_ascii_alphabetic (c : ascii) : bool :=
  let n := Ascii.nat_of_ascii c in
  (((65 <=? n) && (n <=? 90)) || ((97 <=? n) && (n <=? 122)))%nat.
(** Stepping the scanner's primitives. *)
Definition moved (s : Scanner.Scanner) : Scanner.Scanner :=
  Scanner.mkScanner (Scanner.source s) (Scanner.tokens s) (Scanner.err s) (Scanner.start s)
    (Scanner.current s + 1) (Scanner.line s) (Scanner.column s + 1).

Definition count_newlines (cs : list ascii) : nat :=
  length (List.filter (fun c => Ascii.eqb c Scanner.newline) cs).

Definition string_char_ok (c : ascii) : Prop :=
  Ascii.eqb c Scanner.quote = false /\ Ascii.eqb c Scanner.backslash = false.

(** The characters [scan_token] skips or counts as a line break. *)
Definition is_blank (c : ascii) : bool :=
  Ascii.eqb c " "%char || Ascii.eqb c (Ascii.ascii_of_nat 13)
  || Ascii.eqb c (Ascii.ascii_of_nat 9) || Ascii.eqb c Scanner.newline.

(* ------------------------------------------------------------------ *)
(** ** Helpers for the parser properties *)

(** The token kinds [unary] and [primary] accept at the start of an
    expression. *)
Definition expression_starts : list Token.TokenType :=
  [Token.Minus; Token.Bang; Token.False; Token.True; Token.Null; Token.Number;
   Token.String; Token.Identifier; Token.LeftParen].

(** The two panics of an unchecked index: [tokens[current]] out of range
    and [current - 1] below zero. *)
Definition bounds_panic (msg : string) : Prop :=
  msg = oob_msg \/ msg = "attempt to subtract with overflow".

(** Hoare triples over the parser monad: from a state satisfying [P], [m]
    ends in [Q] on success, in [G] on a syntax error, and never in a
    bounds panic. *)
Definition htriple {A} (G P : Parser.Parser -> Prop) (m : Parser.PM A)
    (Q : A -> Parser.Parser -> Prop) : Prop :=
  forall p, P p ->
  match m p with
  | (p', Ok a) => Q a p'
  | (p', Err _) => G p'
  | (_, Panic msg) => ~ bounds_panic msg
  | (_, NoFuel) => True
  end.

(** The token vector is [T] and [current] has not passed index [j]. *)
Definition in_bounds (T : list Token.Token) (j : nat) (p : Parser.Parser) : Prop :=
  Parser.ptokens p = T /\ (Parser.pcurrent p <= j)%nat.

(** After [matches] or [match_one_of]: still in bounds, and past the
    first token when a token was consumed. *)
Definition moved_past (T : list Token.Token) (j : nat) (b : bool) (p : Parser.Parser) : Prop :=
  in_bounds T j p /\ (b = true -> (1 <= Parser.pcurrent p)%nat).


(* ================================================================== *)
(** * Properties *)

Lemma interpret_literal_value (v : Value.t) :
  interpret_literal (value_literal v) = v.
Proof. destruct v as [| | [] |]; reflexivity. Qed.

(** The binary-operator dispatch, once both operands are evaluated. *)
Lemma interpret_binary_eval (env env1 env2 : Environment) (el er : Expr.t)
    (l r : Value.t) (op : BinaryOp) :
  interpret_expr el env = (env1, Ok l) ->
  interpret_expr er env1 = (env2, Ok r) ->
  interpret_expr (Expr.Binary el op er) env = (env2, apply_binary op l r).
Proof.
  intros Hl Hr. cbn [interpret_expr]. unfold bind. rewrite Hl, Hr.
  unfold lift. reflexivity.
Qed.

(** C1: [==] and [!=] both evaluate to [Bool(equals(l, r))] for any pair
    of operand values; [equals] compares Numbers within [f64::EPSILON],
    Strings and Bools exactly, [Null] equals [Null], and values of
    different kinds are unequal. *)
Theorem equality_ops_use_equals (env env1 env2 : Environment) (el er : Expr.t)
    (l r : Value.t) (ln : nat) (col : Z)
    (Hl : interpret_expr el env = (env1, Ok l))
    (Hr : interpret_expr er env1 = (env2, Ok r)) :
  interpret_expr (Expr.Binary el (mkBinaryOp BinOpType.EqualEqual ln col) er) env
    = (env2, Ok (Value.Bool (equals l r)))
  /\ interpret_expr (Expr.Binary el (mkBinaryOp BinOpType.NotEqual ln col) er) env
    = (env2, Ok (Value.Bool (equals l r)))
  /\ (forall a b : float, equals (Value.Number a) (Value.Number b)
        = PrimFloat.ltb (PrimFloat.abs (PrimFloat.sub a b)) f64_epsilon)
  /\ (forall s1 s2 : string, equals (Value.String s1) (Value.String s2) = true <-> s1 = s2)
  /\ (forall b1 b2 : bool, equals (Value.Bool b1) (Value.Bool b2) = true <-> b1 = b2)
  /\ equals Value.Null Value.Null = true
  /\ (forall v w : Value.t, value_kind v <> value_kind w -> equals v w = false).
Proof.
  split; [|split; [|split; [|split; [|split; [|split]]]]].
  - rewrite (interpret_binary_eval env env1 env2 el er l r _ Hl Hr).
    destruct l, r; reflexivity.
  - rewrite (interpret_binary_eval env env1 env2 el er l r _ Hl Hr).
    destruct l, r; reflexivity.
  - reflexivity.
  - intros s1 s2. apply String.eqb_eq.
  - intros b1 b2. apply Bool.eqb_true_iff.
  - reflexivity.
  - intros [] [] Hk; cbn in Hk; try reflexivity; congruence.
Qed.

Lemma equality_ops_use_equals_witness :
  interpret_expr (num 1) empty_env = (empty_env, Ok (Value.Number 1))
  /\ interpret_expr (num 1) empty_env = (empty_env, Ok (Value.Number 1))
  /\ interpret_expr (Expr.Binary (num 1) (mkBinaryOp BinOpType.NotEqual 1 2) (num 1)) empty_env
     = (empty_env, Ok (Value.Bool true)).
Proof.
  split; [reflexivity | split; [reflexivity |]].
  destruct (equality_ops_use_equals empty_env empty_env empty_env (num 1) (num 1)
              (Value.Number 1) (Value.Number 1) 1 2 eq_refl eq_refl) as [_ [H _]].
  rewrite H. vm_compute. reflexivity.
Defined.

(** C2: the program [var x; print x;] panics in [Environment::get]
    ([unwrap] on the stored [None]) instead of returning an
    undefined-variable error. *)
Theorem var_without_initializer_read_panics :
  snd (interpret prog_var_x_print_x)
    = Panic "called `Option::unwrap()` on a `None` value"
  /\ get (define empty_env sym_x None) "x"
    = Panic "called `Option::unwrap()` on a `None` value"
  /\ get empty_env "x" = Err "Undefined variable x".
Proof. vm_compute. repeat split. Qed.

(** C3: ["a" + 1;] reaches the catch-all arm [Err(todo!())] of
    [interpret_binary] and panics; Number + Number and String + String
    evaluate as described. *)
Theorem string_plus_number_panics :
  snd (interpret prog_string_plus_number) = Panic todo_msg
  /\ (forall (a b : float) (ln : nat) (col : Z),
        apply_binary (mkBinaryOp BinOpType.Add ln col) (Value.Number a) (Value.Number b)
        = Ok (Value.Number (PrimFloat.add a b)))
  /\ (forall (a b : string) (ln : nat) (col : Z),
        apply_binary (mkBinaryOp BinOpType.Add ln col) (Value.String a) (Value.String b)
        = Ok (Value.String (a ++ b))).
Proof.
  split; [vm_compute; reflexivity | split; reflexivity].
Qed.

(** C4: scanning a double quote followed by [abc] records the error
    "String needs to be closed" and then fails the [assert!] that the next
    character is the closing quote,
    so [scan] panics instead of returning the [ScanError]. *)
Theorem unterminated_string_panics (parse_f64 : string -> float) :
  Scanner.scan parse_f64 unterminated_abc
    = Panic "assertion failed: self.peek() == quote".
Proof. vm_compute. reflexivity. Qed.

(** C5: [matches] answers [true] at end of input, so each of the
    one-character inputs [!], [=], [<], [>] scans as the two-character
    kind, and [/] runs the comment loop past the end and panics. *)
Theorem single_char_operators_misscanned (parse_f64 : string -> float) :
  scan_kinds parse_f64 "!" = Ok [Scanner.BangEqual; Scanner.Eof]
  /\ scan_kinds parse_f64 "=" = Ok [Scanner.EqualEqual; Scanner.Eof]
  /\ scan_kinds parse_f64 "<" = Ok [Scanner.LessEqual; Scanner.Eof]
  /\ scan_kinds parse_f64 ">" = Ok [Scanner.GreaterEqual; Scanner.Eof]
  /\ Scanner.scan parse_f64 "/" = Panic oob_msg
  /\ scan_kinds parse_f64 "!=" = Ok [Scanner.BangEqual; Scanner.Eof]
  /\ scan_kinds parse_f64 "(" = Ok [Scanner.LeftParen; Scanner.Eof].
Proof. vm_compute. repeat split. Qed.

(** C6: the tokens of [var x = 1] followed by [Eof] parse successfully:
    [var_declaration] drops the [Result] of its [consume(Semicolon, ..)]. *)
Theorem var_decl_missing_semicolon_accepted :
  Parser.parse toks_var_x_eq_1
    = Ok [Stmt.VarDeclaration sym_x (Some (num 1))].
Proof. vm_compute. reflexivity. Qed.

(** C7 (as amended): a division of two Numbers fails exactly when the
    right operand compares equal to [0.0] (so also for [-0.0]), with the
    operator's line and column in the message; otherwise it yields the
    IEEE quotient, which is not checked for infinity or NaN. *)
Theorem division_checks_only_zero (env : Environment) (a b : float) (ln : nat) (col : Z) :
  interpret_expr (Expr.Binary (num a) (mkBinaryOp BinOpType.Div ln col) (num b)) env
  = (env, if PrimFloat.eqb b 0%float
          then Err ("[line: " ++ pretty ln ++ " Column: " ++ pretty col
                    ++ "] Can't divide by zero")
          else Ok (Value.Number (PrimFloat.div a b))).
Proof. cbn. destruct (PrimFloat.eqb b 0%float); reflexivity. Qed.

(** C7 as stated fails: [2^1000 / 2^-100] overflows to infinity and is
    returned as a Number. *)
Lemma division_overflow_counterexample :
  ~ (forall (a b v : float) (ln : nat) (col : Z),
       eval (Expr.Binary (num a) (mkBinaryOp BinOpType.Div ln col) (num b))
         = Ok (Value.Number v) ->
       PrimFloat.is_finite v = true).
Proof.
  intro H.
  specialize (H 0x1p1000%float 0x1p-100%float PrimFloat.infinity 1 2%Z).
  vm_compute in H. discriminate (H eq_refl).
Qed.

(** C9 (as amended): [parse] panics on the empty token vector
    ([self.tokens[0]] is out of range), but a non-empty vector without
    [Eof] may return an error, as the single token [)] does; and [run]
    never hands an empty vector to [parse] after a scan error, because its
    error reporter panics first. *)
Theorem parse_without_eof (parse_f64 : string -> float) :
  Parser.parse [] = Panic oob_msg
  /\ Parser.parse [rparen_tok]
     = Err (Parser.TokenMismatch Token.Semicolon rparen_tok (Some "Expected ';'"))
  /\ (forall (code : string) (e : Scanner.Error),
        Scanner.scan parse_f64 code = Err e ->
        exists msg, run_tokens parse_f64 code = Panic msg).
Proof.
  split; [vm_compute; reflexivity | split; [vm_compute; reflexivity |]].
  intros code e He. unfold run_tokens. rewrite He. eexists. reflexivity.
Qed.

Lemma parse_without_eof_witness :
  Scanner.scan (fun _ => 0%float) "#"
    = Err (Scanner.mkError "Invalid character found: #" 1 0)
  /\ exists msg, run_tokens (fun _ => 0%float) "#" = Panic msg.
Proof.
  split; [vm_compute; reflexivity |].
  destruct (parse_without_eof (fun _ => 0%float)) as [_ [_ H]].
  apply (H "#" (Scanner.mkError "Invalid character found: #" 1 0)).
  vm_compute. reflexivity.
Defined.

(** C9 as stated fails: the token vector [)] has no [Eof], yet [parse]
    returns a [TokenMismatch] instead of panicking. *)
Lemma parse_without_eof_counterexample :
  ~ (forall toks : list Token.Token,
       (forall t, In t toks -> Token.token_type t <> Token.Eof) ->
       exists msg, Parser.parse toks = Panic msg).
Proof.
  intro H.
  destruct (H [rparen_tok]) as [msg Hmsg].
  - intros t [<- | []]. discriminate.
  - vm_compute in Hmsg. discriminate.
Qed.

(** C10: an assignment evaluates its right-hand side first; when the
    target is not defined afterwards, it fails with the environment left
    exactly as the right-hand side left it (no binding added, the
    right-hand side's own assignments kept). *)
Theorem assignment_evaluates_value_first (env env1 : Environment) (sym : Symbol)
    (e : Expr.t) (v : Value.t)
    (He : interpret_expr e env = (env1, Ok v))
    (Hundef : contains_key env1 (name sym) = false) :
  interpret_expr (Expr.Assignment sym e) env
    = (env1, Err "attempted to assign to an undefined variable")
  /\ dom (values (fst (interpret_expr (Expr.Assignment sym e) env)))
     = dom (values env1).
Proof.
  assert (H : interpret_expr (Expr.Assignment sym e) env
              = (env1, Err "attempted to assign to an undefined variable")).
  { cbn [interpret_expr]. unfold bind. rewrite He. unfold assign.
    rewrite Hundef. reflexivity. }
  split; [exact H | rewrite H; reflexivity].
Qed.

Lemma assignment_evaluates_value_first_witness :
  let env0 := define empty_env sym_x (Some (Value.Number 0)) in
  let env1 := define empty_env sym_x (Some (Value.Number 1)) in
  let sym_y := mkSymbol "y" 1 0 in
  interpret_expr (Expr.Assignment sym_x (num 1)) env0 = (env1, Ok (Value.Number 1))
  /\ contains_key env1 "y" = false
  /\ interpret_expr (Expr.Assignment sym_y (Expr.Assignment sym_x (num 1))) env0
     = (env1, Err "attempted to assign to an undefined variable").
Proof.
  cbv zeta.
  split; [vm_compute; reflexivity | split; [vm_compute; reflexivity |]].
  apply (assignment_evaluates_value_first
           (define empty_env sym_x (Some (Value.Number 0)))
           (define empty_env sym_x (Some (Value.Number 1)))
           (mkSymbol "y" 1 0) (Expr.Assignment sym_x (num 1)) (Value.Number 1));
    vm_compute; reflexivity.
Defined.

(** *** Stepping the parser over a token vector *)

Lemma bind_ok {St E A B} (m : M St E A) (k : A -> M St E B) (s s' : St) (a : A) :
  m s = (s', Ok a) -> bind m k s = k a s'.
Proof. intros H. unfold bind. rewrite H. reflexivity. Qed.

Lemma bind_lift_ok {St E A B} (o : outcome E A) (k : A -> M St E B) (s : St) (a : A) :
  o = Ok a -> bind (lift o) k s = k a s.
Proof. intros ->. reflexivity. Qed.

Lemma skipn_cons_nth {A} (l : list A) (i : nat) (x : A) (r : list A) :
  skipn i l = x :: r -> nth_error l i = Some x /\ skipn (S i) l = r.
Proof.
  revert l. induction i as [|i IH]; intros [|y l] H; cbn in *; try discriminate.
  - injection H as -> ->. auto.
  - apply IH. exact H.
Qed.

Lemma length_flatten_chain (chain : list (Token.Token * Token.Token)) :
  length (flatten_chain chain) = 2 * length chain.
Proof. induction chain as [|[o t] c IH]; cbn; [reflexivity | lia]. Qed.

Ltac parser_simpl :=
  cbv beta iota zeta delta [Parser.unary_step Parser.primary Parser.match_one_of
    Parser.matches Parser.check Parser.is_at_end Parser.peek Parser.advance
    Parser.previous bind ret modify lift throw Token.TokenType_beq
    Parser.ptokens Parser.pcurrent Token.token_type Token.literal].

Ltac parser_run H := repeat progress (try rewrite H; parser_simpl).

Lemma previous_at (T : list Token.Token) (i : nat) (t : Token.Token) :
  nth_error T i = Some t ->
  Parser.previous (Parser.mkParser T (S i)) = (Parser.mkParser T (S i), Ok t).
Proof. intros Hi. cbv [Parser.previous Parser.pcurrent Parser.ptokens]. rewrite Hi. reflexivity. Qed.

Lemma match_one_of_eof (ops : list Token.TokenType) (T : list Token.Token) (i : nat)
    (e : Token.Token) :
  nth_error T i = Some e -> Token.token_type e = Token.Eof ->
  Parser.match_one_of ops (Parser.mkParser T i) = (Parser.mkParser T i, Ok false).
Proof.
  intros Hi He. destruct e as [k lx lit ln col]; cbn in He; subst k.
  induction ops as [|o ops IH]; [reflexivity|].
  cbn [Parser.match_one_of].
  rewrite (bind_ok _ _ _ (Parser.mkParser T i) false).
  - exact IH.
  - parser_run Hi. reflexivity.
Qed.

(** A number token is parsed by [unary] into its literal, consuming it. *)
Lemma unary_number (f : nat) (T : list Token.Token) (i : nat) (t : Token.Token) :
  nth_error T i = Some t -> is_number_token t ->
  Parser.unary (S f) (Parser.mkParser T i)
    = (Parser.mkParser T (S i), Ok (number_literal t)).
Proof.
  intros Hi [Hk [n Hl]]. unfold number_literal. rewrite Hl.
  destruct t as [k lx lit ln col]; cbn in Hk, Hl; subst.
  cbn [Parser.unary]. parser_run Hi. reflexivity.
Qed.

Lemma additive_match (T : list Token.Token) (i : nat) (o : Token.Token) :
  nth_error T i = Some o -> additive_op (Token.token_type o) <> None ->
  Parser.match_one_of [Token.Plus; Token.Minus] (Parser.mkParser T i)
    = (Parser.mkParser T (S i), Ok true).
Proof.
  intros Hi Hk. destruct o as [k lx lit ln col]; cbn in Hk.
  destruct k; cbn in Hk; try congruence; parser_run Hi; reflexivity.
Qed.

Lemma multiplicative_match (T : list Token.Token) (i : nat) (o : Token.Token) :
  nth_error T i = Some o -> multiplicative_op (Token.token_type o) <> None ->
  Parser.match_one_of [Token.Star; Token.Slash] (Parser.mkParser T i)
    = (Parser.mkParser T (S i), Ok true).
Proof.
  intros Hi Hk. destruct o as [k lx lit ln col]; cbn in Hk.
  destruct k; cbn in Hk; try congruence; parser_run Hi; reflexivity.
Qed.

(** After a number, an additive operator or [Eof] ends the [factor] loop. *)
Lemma multiplicative_miss (T : list Token.Token) (i : nat) (x : Token.Token) :
  nth_error T i = Some x ->
  additive_op (Token.token_type x) <> None \/ Token.token_type x = Token.Eof ->
  Parser.match_one_of [Token.Star; Token.Slash] (Parser.mkParser T i)
    = (Parser.mkParser T i, Ok false).
Proof.
  intros Hi Hk. destruct x as [k lx lit ln col]; cbn in Hk.
  destruct k; cbn in Hk; destruct Hk as [Hk | Hk]; try congruence; parser_run Hi; reflexivity.
Qed.

Lemma additive_binop (o : Token.Token) (k : BinOpType.t) :
  additive_op (Token.token_type o) = Some k ->
  Parser.op_token_to_binop o = Ok (mkBinaryOp k (Token.t_line o) (Token.t_column o)).
Proof.
  destruct o as [tk lx lit ln col]; cbn. destruct tk; intros H; try discriminate;
    injection H as <-; reflexivity.
Qed.

Lemma multiplicative_binop (o : Token.Token) (k : BinOpType.t) :
  multiplicative_op (Token.token_type o) = Some k ->
  Parser.op_token_to_binop o = Ok (mkBinaryOp k (Token.t_line o) (Token.t_column o)).
Proof.
  destruct o as [tk lx lit ln col]; cbn. destruct tk; intros H; try discriminate;
    injection H as <-; reflexivity.
Qed.

(** *** The operator loop folds to the left *)

Section Chain.
Variables (ops : list Token.TokenType) (kind : Token.TokenType -> option BinOpType.t)
          (operand : Parser.PM Expr.t) (T : list Token.Token) (e : Token.Token).
Hypothesis He : Token.token_type e = Token.Eof.
Hypothesis Hop_match : forall i o, nth_error T i = Some o ->
  kind (Token.token_type o) <> None ->
  Parser.match_one_of ops (Parser.mkParser T i) = (Parser.mkParser T (S i), Ok true).
Hypothesis Hop_binop : forall o k, kind (Token.token_type o) = Some k ->
  Parser.op_token_to_binop o = Ok (mkBinaryOp k (Token.t_line o) (Token.t_column o)).
Hypothesis Hoperand : forall i t rest, skipn i T = t :: rest -> is_number_token t ->
  (exists x r, rest = x :: r /\
     (kind (Token.token_type x) <> None \/ Token.token_type x = Token.Eof)) ->
  operand (Parser.mkParser T i) = (Parser.mkParser T (S i), Ok (number_literal t)).

Lemma binary_loop_chain (chain : list (Token.Token * Token.Token)) :
  forall (i : nat) (acc : Expr.t) (fuel : nat),
  skipn i T = (flatten_chain chain ++ [e])%list ->
  chain_ok kind chain ->
  length chain < fuel ->
  Parser.binary_loop fuel ops operand acc (Parser.mkParser T i)
    = (Parser.mkParser T (i + 2 * length chain), Ok (left_fold kind acc chain)).
Proof.
  induction chain as [|[o t] chain IH]; intros i acc fuel Hskip Hok Hfuel;
    (destruct fuel as [|fuel]; [cbn in Hfuel; lia |]); cbn [Parser.binary_loop].
  - destruct (skipn_cons_nth T i e [] Hskip) as [Hi _].
    rewrite (bind_ok _ _ _ (Parser.mkParser T i) false) by
      (apply (match_one_of_eof ops T i e Hi He)).
    cbn. rewrite Nat.add_0_r. reflexivity.
  - inversion Hok as [|ot rest [Hk Ht] Hrest]; subst; cbn [fst snd] in Hk, Ht.
    cbn [flatten_chain app] in Hskip.
    destruct (skipn_cons_nth T i o _ Hskip) as [Hi Hskip1].
    destruct (skipn_cons_nth T (S i) t _ Hskip1) as [_ Hskip2].
    rewrite (bind_ok _ _ _ (Parser.mkParser T (S i)) true) by (apply (Hop_match i o Hi Hk)).
    cbv beta iota.
    rewrite (bind_ok _ _ _ (Parser.mkParser T (S i)) o) by (apply previous_at; exact Hi).
    rewrite (bind_ok _ _ _ (Parser.mkParser T (S (S i))) (number_literal t)).
    2:{ apply (Hoperand (S i) t ((flatten_chain chain ++ [e])%list) Hskip1 Ht).
        destruct chain as [|[o' t'] chain']; cbn.
        - exists e, []. split; [reflexivity | right; exact He].
        - exists o', ((t' :: flatten_chain chain') ++ [e])%list. split; [reflexivity |].
          left. inversion Hrest as [|? ? [Hk' _]]. exact Hk'. }
    destruct (kind (Token.token_type o)) as [k|] eqn:Hkind; [|congruence].
    rewrite (bind_lift_ok _ _ _ _ (Hop_binop o k Hkind)).
    rewrite (IH (S (S i)) _ fuel Hskip2 Hrest) by (cbn in Hfuel; lia).
    unfold left_fold. cbn [fold_left fst snd]. rewrite Hkind.
    f_equal. f_equal. cbn [length]. lia.
Qed.

End Chain.

(** A number followed by an additive operator or [Eof] is a whole [factor]. *)
Lemma factor_number (f : nat) (T : list Token.Token) (i : nat) (t : Token.Token)
    (rest : list Token.Token) :
  skipn i T = t :: rest -> is_number_token t ->
  (exists x r, rest = x :: r /\
     (additive_op (Token.token_type x) <> None \/ Token.token_type x = Token.Eof)) ->
  Parser.factor (Parser.unary (S f)) (Parser.mkParser T i)
    = (Parser.mkParser T (S i), Ok (number_literal t)).
Proof.
  intros Hskip Ht [x [r [-> Hx]]].
  destruct (skipn_cons_nth _ _ _ _ Hskip) as [Hi Hs].
  destruct (skipn_cons_nth _ _ _ _ Hs) as [Hx' _].
  unfold Parser.factor, Parser.binary_level.
  rewrite (bind_ok _ _ _ (Parser.mkParser T (S i)) (number_literal t))
    by (apply unary_number; assumption).
  cbv beta. cbn [Parser.ptokens Parser.binary_loop].
  rewrite (bind_ok _ _ _ (Parser.mkParser T (S i)) false)
    by (apply (multiplicative_miss T (S i) x Hx' Hx)).
  reflexivity.
Qed.

Lemma chain_fuel (T : list Token.Token) (i : nat) (t0 e : Token.Token)
    (chain : list (Token.Token * Token.Token)) :
  skipn i T = t0 :: (flatten_chain chain ++ [e])%list ->
  length chain < S (length T).
Proof.
  intros H. apply (f_equal (@length _)) in H.
  rewrite length_skipn in H. cbn [length] in H.
  rewrite length_app, length_flatten_chain in H. cbn [length] in H. lia.
Qed.

(** C8: from the cursor on, a chain [n0 op1 n1 ... opk nk Eof] of number
    tokens and additive operators is parsed by [term], and one with
    multiplicative operators by [factor], into the left fold
    [(...((n0 op1 n1) op2 n2) ...) opk nk]; so the tokens of [1 + 2 * 3]
    parse to [Binary(1, Add, Binary(2, Mult, 3))], evaluating to [7.0],
    and those of [1 - 2 - 3] to [(1 - 2) - 3], evaluating to [-4.0]. *)
Theorem term_factor_left_assoc (f : nat)
    (Tt : list Token.Token) (it : nat) (t0 et : Token.Token)
    (chain_t : list (Token.Token * Token.Token))
    (Ht : skipn it Tt = t0 :: (flatten_chain chain_t ++ [et])%list)
    (Ht0 : is_number_token t0) (Het : Token.token_type et = Token.Eof)
    (Hct : chain_ok additive_op chain_t)
    (Tf : list Token.Token) (if_ : nat) (u0 ef : Token.Token)
    (chain_f : list (Token.Token * Token.Token))
    (Hf : skipn if_ Tf = u0 :: (flatten_chain chain_f ++ [ef])%list)
    (Hu0 : is_number_token u0) (Hef : Token.token_type ef = Token.Eof)
    (Hcf : chain_ok multiplicative_op chain_f) :
  Parser.term (Parser.unary (S f)) (Parser.mkParser Tt it)
    = (Parser.mkParser Tt (S it + 2 * length chain_t),
       Ok (left_fold additive_op (number_literal t0) chain_t))
  /\ Parser.factor (Parser.unary (S f)) (Parser.mkParser Tf if_)
    = (Parser.mkParser Tf (S if_ + 2 * length chain_f),
       Ok (left_fold multiplicative_op (number_literal u0) chain_f))
  /\ parse_expression toks_1_plus_2_times_3
    = Ok (Expr.Binary (num 1) (binop BinOpType.Add 2)
            (Expr.Binary (num 2) (binop BinOpType.Mult 6) (num 3)))
  /\ eval (Expr.Binary (num 1) (binop BinOpType.Add 2)
            (Expr.Binary (num 2) (binop BinOpType.Mult 6) (num 3)))
    = Ok (Value.Number 7)
  /\ parse_expression toks_1_minus_2_minus_3
    = Ok (Expr.Binary (Expr.Binary (num 1) (binop BinOpType.Sub 2) (num 2))
            (binop BinOpType.Sub 6) (num 3))
  /\ eval (Expr.Binary (Expr.Binary (num 1) (binop BinOpType.Sub 2) (num 2))
            (binop BinOpType.Sub 6) (num 3))
    = Ok (Value.Number (-4)%float).
Proof.
  split; [| split; [| vm_compute; repeat split]].
  - unfold Parser.term, Parser.binary_level.
    destruct (skipn_cons_nth _ _ _ _ Ht) as [_ Hs].
    rewrite (bind_ok _ _ _ (Parser.mkParser Tt (S it)) (number_literal t0)).
    2:{ apply (factor_number f Tt it t0 _ Ht Ht0).
        destruct chain_t as [|[o t] c]; cbn.
        - exists et, []. split; [reflexivity | right; exact Het].
        - exists o, ((t :: flatten_chain c) ++ [et])%list. split; [reflexivity |].
          left. inversion Hct as [|? ? [Hk _]]. exact Hk. }
    cbv beta. cbn [Parser.ptokens].
    apply (binary_loop_chain [Token.Plus; Token.Minus] additive_op
             (Parser.factor (Parser.unary (S f))) Tt et Het).
    + intros i o Hi Hk. exact (additive_match Tt i o Hi Hk).
    + exact additive_binop.
    + intros i t rest Hskip Hnum Hnext. exact (factor_number f Tt i t rest Hskip Hnum Hnext).
    + exact Hs.
    + exact Hct.
    + exact (chain_fuel Tt it t0 et chain_t Ht).
  - unfold Parser.factor, Parser.binary_level.
    destruct (skipn_cons_nth _ _ _ _ Hf) as [Hi0 Hs].
    rewrite (bind_ok _ _ _ (Parser.mkParser Tf (S if_)) (number_literal u0))
      by (apply unary_number; assumption).
    cbv beta. cbn [Parser.ptokens].
    apply (binary_loop_chain [Token.Star; Token.Slash] multiplicative_op
             (Parser.unary (S f)) Tf ef Hef).
    + intros i o Hi Hk. exact (multiplicative_match Tf i o Hi Hk).
    + exact multiplicative_binop.
    + intros i t rest Hskip Hnum _.
      destruct (skipn_cons_nth _ _ _ _ Hskip) as [Hi _].
      exact (unary_number f Tf i t Hi Hnum).
    + exact Hs.
    + exact Hcf.
    + exact (chain_fuel Tf if_ u0 ef chain_f Hf).
Qed.

Lemma term_factor_left_assoc_witness :
  Parser.term (Parser.unary 1) (Parser.mkParser toks_1_minus_2_minus_3 0)
    = (Parser.mkParser toks_1_minus_2_minus_3 5,
       Ok (Expr.Binary (Expr.Binary (num 1) (binop BinOpType.Sub 2) (num 2))
             (binop BinOpType.Sub 6) (num 3)))
  /\ Parser.factor (Parser.unary 1)
       (Parser.mkParser [num_tok 2 "2" 0; tok Token.Star "*" None 2; num_tok 3 "3" 4;
                         tok Token.Slash "/" None 6; num_tok 4 "4" 8; eof_tok 8] 0)
    = (Parser.mkParser [num_tok 2 "2" 0; tok Token.Star "*" None 2; num_tok 3 "3" 4;
                        tok Token.Slash "/" None 6; num_tok 4 "4" 8; eof_tok 8] 5,
       Ok (Expr.Binary (Expr.Binary (num 2) (binop BinOpType.Mult 2) (num 3))
             (binop BinOpType.Div 6) (num 4))).
Proof.
  destruct (term_factor_left_assoc 0
     toks_1_minus_2_minus_3 0 (num_tok 1 "1" 0) (eof_tok 8)
     [(tok Token.Minus "-" None 2, num_tok 2 "2" 4); (tok Token.Minus "-" None 6, num_tok 3 "3" 8)]
     eq_refl (conj eq_refl (ex_intro _ 1%N eq_refl)) eq_refl
     ltac:(repeat constructor; try discriminate; eexists; reflexivity)
     [num_tok 2 "2" 0; tok Token.Star "*" None 2; num_tok 3 "3" 4;
      tok Token.Slash "/" None 6; num_tok 4 "4" 8; eof_tok 8] 0
     (num_tok 2 "2" 0) (eof_tok 8)
     [(tok Token.Star "*" None 2, num_tok 3 "3" 4); (tok Token.Slash "/" None 6, num_tok 4 "4" 8)]
     eq_refl (conj eq_refl (ex_intro _ 2%N eq_refl)) eq_refl
     ltac:(repeat constructor; try discriminate; eexists; reflexivity))
    as [Hterm [Hfactor _]].
  rewrite Hterm, Hfactor. split; vm_compute; reflexivity.
Defined.

(* ------------------------------------------------------------------ *)
(** ** The environment and the interpreter loop *)

Lemma contains_key_true env k : contains_key env k = true <-> k ∈ dom (values env).
Proof. unfold contains_key. rewrite bool_decide_eq_true, elem_of_dom. reflexivity. Qed.

Lemma get_define_same (env : Environment) (sym : Symbol) (v : Value.t) :
  get (define env sym (Some v)) (name sym) = Ok v.
Proof.
  unfold get, define, contains_key; cbn. rewrite lookup_insert_eq.
  rewrite bool_decide_eq_true_2 by eauto. reflexivity.
Qed.

Lemma get_define_other (env : Environment) (sym : Symbol) (val : option Value.t) (n : string) :
  n <> name sym -> get (define env sym val) n = get env n.
Proof.
  intros Hn. unfold get, define, contains_key; cbn.
  rewrite lookup_insert_ne by congruence. reflexivity.
Qed.

(** X1: after [define] with a value, [get] of that name returns the value;
    [define] leaves every other name as it was. *)
Theorem environment_define_get (env : Environment) (sym : Symbol) (v : Value.t)
    (val : option Value.t) (n : string) :
  get (define env sym (Some v)) (name sym) = Ok v
  /\ (n <> name sym -> get (define env sym val) n = get env n).
Proof. split; [apply get_define_same | apply get_define_other]. Qed.

Lemma interpret_expr_dom (e : Expr.t) : forall env,
  dom (values (fst (interpret_expr e env))) = dom (values env).
Proof.
  induction e as [l | op e IH | l IHl op r IHr | a IHa b IHb c IHc | sym e IH | e IH | sym];
    intros env; cbn [interpret_expr]; try reflexivity.
  - unfold bind. specialize (IH env). destruct (interpret_expr e env) as [env1 [] ]; exact IH.
  - unfold bind. specialize (IHl env). destruct (interpret_expr l env) as [env1 [] ]; try exact IHl.
    specialize (IHr env1). destruct (interpret_expr r env1) as [env2 [] ]; cbn in *; congruence.
  - unfold bind. specialize (IH env). destruct (interpret_expr e env) as [env1 [] ]; try exact IH.
    unfold assign. destruct (contains_key env1 (name sym)) eqn:Hk; cbn in *; [|exact IH].
    apply contains_key_true in Hk. rewrite dom_insert_L. rewrite <- IH. set_solver.
  - apply IH.
Qed.

(** X2: evaluating an expression never declares or removes a variable:
    whatever the outcome, a name is defined afterwards exactly when it was
    defined before (an assignment only overwrites a defined name). *)
Theorem interpret_expr_keeps_names (e : Expr.t) (env : Environment) (k : string) :
  contains_key (fst (interpret_expr e env)) k = contains_key env k.
Proof.
  apply Bool.eq_iff_eq_true. rewrite !contains_key_true, interpret_expr_dom. reflexivity.
Qed.

(** X3: [interpret_binary] fails with an error exactly on a division of two
    numbers by zero, and panics exactly when the operator is neither [==]
    nor [!=], the operands are not both numbers, and it is not [+] on two
    strings. *)
Theorem apply_binary_failures (op : BinaryOp) (l r : Value.t) :
  (forall e, apply_binary op l r = Err e <->
     b_type op = BinOpType.Div /\
     (exists a b, l = Value.Number a /\ r = Value.Number b /\ PrimFloat.eqb b 0%float = true)
     /\ e = div_by_zero_msg (b_line op) (b_column op))
  /\ ((exists msg, apply_binary op l r = Panic msg) <->
      ~ (b_type op = BinOpType.EqualEqual \/ b_type op = BinOpType.NotEqual
         \/ (exists a b, l = Value.Number a /\ r = Value.Number b)
         \/ (b_type op = BinOpType.Add /\ exists a b, l = Value.String a /\ r = Value.String b))).
Proof.
  destruct op as [k ln col]. split.
  - intros e. destruct l, k, r; cbn [apply_binary b_type b_line b_column];
      try (split; [discriminate | intros [? [[? [? [? [? ?]]]] _]]; discriminate]).
    all: try (split; [discriminate | intros [? _]; discriminate]).
    all: try (destruct (PrimFloat.eqb n0 0%float) eqn:Hz; split;
       [ intros H; injection H as <-; repeat split; eauto
       | intros [_ [[a [b [Ha [Hb Hz']]]] ->]]; reflexivity
       | discriminate
       | intros [_ [[a [b [Ha [Hb Hz']]]] ->]]; injection Ha as <-; injection Hb as <-; congruence ]).
  - destruct l, k, r; cbn [apply_binary b_type];
      split; try (intros [msg H]; discriminate H);
      try (intros _; eexists; reflexivity);
      try (destruct (PrimFloat.eqb n0 0%float); intros [msg H]; discriminate H);
      try (intros H; exfalso; apply H;
           first [ left; reflexivity | right; left; reflexivity
                 | right; right; left; do 2 eexists; split; reflexivity
                 | right; right; right; split; [reflexivity | do 2 eexists; split; reflexivity] ]);
      try (intros _ [H|[H|[[? [? [Ha Hb]]]|[H [? [? [Ha Hb]]]]]]]; discriminate).
Qed.

(** X4: interpreting [s1 ++ s2] interprets [s1], stops at its first error
    or panic, and otherwise goes on with [s2] from the state [s1] left. *)
Theorem interpret_stmts_app (s1 s2 : list Stmt.t) (st : State) :
  interpret_stmts (s1 ++ s2) st
  = match interpret_stmts s1 st with
    | (st1, Ok _) => interpret_stmts s2 st1
    | (st1, Err e) => (st1, Err e)
    | (st1, Panic msg) => (st1, Panic msg)
    | (st1, NoFuel) => (st1, NoFuel)
    end.
Proof.
  revert st. induction s1 as [|x s1 IH]; intros st; [reflexivity|].
  cbn [app interpret_stmts]. unfold bind.
  destruct (execute x st) as [st1 [] ]; [apply IH | reflexivity..].
Qed.

(** X5: [var s = e1; s = e2; print s;] prints the value of [e2], evaluated
    after [s] is bound to the value of [e1], and leaves [s] bound to it. *)
Theorem declare_assign_print (st : State) (s : Symbol) (e1 e2 : Expr.t)
    (env1 env2 : Environment) (v1 v2 : Value.t)
    (H1 : interpret_expr e1 (env st) = (env1, Ok v1))
    (H2 : interpret_expr e2 (define env1 s (Some v1)) = (env2, Ok v2)) :
  interpret_stmts [Stmt.VarDeclaration s (Some e1); Stmt.Expression (Expr.Assignment s e2);
                   Stmt.Print (Expr.Var s)] st
  = (mkState (define env2 s (Some v2)) (output st ++ [v2])%list, Ok tt).
Proof.
  assert (Hk : contains_key env2 (name s) = true).
  { apply contains_key_true.
    pose proof (interpret_expr_dom e2 (define env1 s (Some v1))) as Hd.
    rewrite H2 in Hd. cbn in Hd. rewrite Hd. cbn. rewrite dom_insert_L. set_solver. }
  cbn [interpret_stmts execute interpret_expr]. unfold bind, on_env, emit, modify, ret.
  rewrite H1. cbn [env output]. rewrite H2. unfold assign. rewrite Hk. cbn [env output].
  rewrite get_define_same. reflexivity.
Qed.


(* ------------------------------------------------------------------ *)
(** ** [utils/print_ast.rs] *)

(** X6: [format] panics ([todo!]) exactly when the expression contains a
    variable or an assignment node; on any other expression it returns a
    string. *)
Theorem format_panics_on_variables (display_f64 : float -> string) (e : Expr.t) :
  (has_variable_node e = true -> PrintAst.format display_f64 e = Panic todo_msg)
  /\ (has_variable_node e = false -> exists s, PrintAst.format display_f64 e = Ok s).
Proof.
  induction e as [l | op e IH | l IHl op r IHr | a IHa b IHb c IHc | sym e IH | e IH | sym];
    cbn [has_variable_node PrintAst.format]; split; intros H; try discriminate.
  - eexists; reflexivity.
  - rewrite (proj1 IH H). reflexivity.
  - destruct (proj2 IH H) as [s ->]. eexists; reflexivity.
  - apply orb_true_iff in H as [H|H].
    + rewrite (proj1 IHl H). reflexivity.
    + destruct (has_variable_node l) eqn:Hl.
      * rewrite (proj1 IHl eq_refl). reflexivity.
      * destruct (proj2 IHl eq_refl) as [s ->]. cbn. rewrite (proj1 IHr H). reflexivity.
  - apply orb_false_iff in H as [H1 H2].
    destruct (proj2 IHl H1) as [s1 ->]. destruct (proj2 IHr H2) as [s2 ->].
    eexists; reflexivity.
  - destruct (has_variable_node a) eqn:Ha.
    + rewrite (proj1 IHa eq_refl). reflexivity.
    + destruct (proj2 IHa eq_refl) as [sa ->]. cbn.
      destruct (has_variable_node b) eqn:Hb.
      * rewrite (proj1 IHb eq_refl). reflexivity.
      * destruct (proj2 IHb eq_refl) as [sb ->]. cbn. rewrite (proj1 IHc H). reflexivity.
  - apply orb_false_iff in H as [H H3]. apply orb_false_iff in H as [H1 H2].
    destruct (proj2 IHa H1) as [s1 ->]. destruct (proj2 IHb H2) as [s2 ->].
    destruct (proj2 IHc H3) as [s3 ->]. eexists; reflexivity.
  - reflexivity.
  - rewrite (proj1 IH H). reflexivity.
  - destruct (proj2 IH H) as [s ->]. eexists; reflexivity.
  - reflexivity.
Qed.


(* ------------------------------------------------------------------ *)
(** ** The scanner *)


Section Spres.
Variable Inv : Scanner.Scanner -> Prop.

Lemma spres_bind {A B} (m : Scanner.SM A) (k : A -> Scanner.SM B) :
  spres Inv m -> (forall a, spres Inv (k a)) -> spres Inv (bind m k).
Proof.
  intros Hm Hk s s' b Hs H. unfold bind in H.
  destruct (m s) as [s1 [a| | |]] eqn:E; try discriminate.
  exact (Hk a s1 s' b (Hm s s1 a Hs E) H).
Qed.

Lemma spres_ret {A} (a : A) : spres Inv (ret a).
Proof. intros s s' b Hs H. injection H as <- _. exact Hs. Qed.

Lemma spres_gets {A} (f : Scanner.Scanner -> A) : spres Inv (gets f).
Proof. intros s s' b Hs H. injection H as <- _. exact Hs. Qed.

Lemma spres_panic {A} (msg : string) : spres Inv (@panic _ _ A msg).
Proof. intros s s' b Hs H. discriminate. Qed.

Lemma spres_modify (f : Scanner.Scanner -> Scanner.Scanner) :
  (forall s, Inv s -> Inv (f s)) -> spres Inv (modify f).
Proof. intros Hf s s' b Hs H. injection H as <- _. apply Hf, Hs. Qed.

Lemma spres_while (cond : Scanner.SM bool) (body : Scanner.SM unit) :
  spres Inv cond -> spres Inv body -> forall fuel, spres Inv (while_fuel fuel cond body).
Proof.
  intros Hc Hb fuel. induction fuel as [|f IH]; cbn [while_fuel].
  - intros s s' a _ H. discriminate.
  - apply spres_bind; [exact Hc|]. intros [].
    + apply spres_bind; [exact Hb|]. intros _. exact IH.
    + apply spres_ret.
Qed.

Lemma spres_sloop (cond : Scanner.SM bool) (body : Scanner.SM unit) :
  spres Inv cond -> spres Inv body -> spres Inv (Scanner.sloop cond body).
Proof. intros Hc Hb s. exact (spres_while cond body Hc Hb _ s). Qed.

End Spres.

Section TokensAndErr.
(** An invariant of the tokens pushed so far and the recorded error. *)
Variable P : list Scanner.Token -> option Scanner.Error -> Prop.
Hypothesis P_err : forall ts e e', P ts e -> P ts (Some e').
Hypothesis P_push : forall ts e t, P ts e ->
  scanned_kind (Scanner.token_type t) = true -> P (ts ++ [t])%list e.

Let Inv (s : Scanner.Scanner) : Prop := P (Scanner.tokens s) (Scanner.err s).


Lemma spres_is_at_end : spres Inv Scanner.is_at_end.
Proof. apply spres_gets. Qed.
Lemma spres_peek : spres Inv Scanner.peek.
Proof. apply spres_gets. Qed.
Lemma spres_peek_next : spres Inv Scanner.peek_next.
Proof. apply spres_gets. Qed.
Lemma spres_set_pos cur col : spres Inv (Scanner.set_pos cur col).
Proof. apply spres_modify. intros [] H. exact H. Qed.
Lemma spres_set_line ln : spres Inv (Scanner.set_line ln).
Proof. apply spres_modify. intros [] H. exact H. Qed.
Lemma spres_set_column col : spres Inv (Scanner.set_column col).
Proof. apply spres_modify. intros [] H. exact H. Qed.
Lemma spres_set_start n : spres Inv (Scanner.set_start n).
Proof. apply spres_modify. intros [] H. exact H. Qed.
Lemma spres_set_source src : spres Inv (Scanner.set_source src).
Proof. apply spres_modify. intros [] H. exact H. Qed.
Lemma spres_set_err e : spres Inv (Scanner.set_err e).
Proof. apply spres_modify. intros [] H. eapply P_err. exact H. Qed.
Lemma spres_push_token t :
  scanned_kind (Scanner.token_type t) = true -> spres Inv (Scanner.push_token t).
Proof. intros Hk. apply spres_modify. intros [] H. apply P_push; assumption. Qed.

Ltac spres_step :=
  match goal with
  | |- spres _ (bind _ _) => apply spres_bind; [| intros ?]
  | |- spres _ (if ?b then _ else _) => destruct b
  | |- spres _ (match ?x with _ => _ end) => destruct x
  | |- spres _ (ret _) => apply spres_ret
  | |- spres _ (gets _) => apply spres_gets
  | |- spres _ (panic _) => apply spres_panic
  | |- spres _ Scanner.is_at_end => apply spres_is_at_end
  | |- spres _ Scanner.peek => apply spres_peek
  | |- spres _ Scanner.peek_next => apply spres_peek_next
  | |- spres _ (Scanner.set_pos _ _) => apply spres_set_pos
  | |- spres _ (Scanner.set_line _) => apply spres_set_line
  | |- spres _ (Scanner.set_column _) => apply spres_set_column
  | |- spres _ (Scanner.set_start _) => apply spres_set_start
  | |- spres _ (Scanner.set_source _) => apply spres_set_source
  | |- spres _ (Scanner.set_err _) => apply spres_set_err
  | |- spres _ (Scanner.push_token _) => apply spres_push_token; reflexivity
  | |- spres _ (Scanner.sloop _ _) => apply spres_sloop
  end.

Lemma spres_advance : spres Inv Scanner.advance.
Proof. unfold Scanner.advance. repeat spres_step. Qed.

Lemma spres_matches c : spres Inv (Scanner.matches c).
Proof. unfold Scanner.matches. repeat spres_step. Qed.

Lemma spres_add_token_literal tt lit :
  scanned_kind tt = true -> spres Inv (Scanner.add_token_literal tt lit).
Proof.
  intros Hk. unfold Scanner.add_token_literal. repeat spres_step.
  apply spres_push_token. exact Hk.
Qed.

Ltac spres_step2 :=
  first [ spres_step
        | apply spres_advance
        | apply spres_matches
        | apply spres_add_token_literal; reflexivity
        | match goal with |- spres _ (Scanner.add_token_literal (if ?b then _ else _) _) =>
            destruct b end ].

Lemma spres_string : spres Inv Scanner.string_.
Proof. unfold Scanner.string_. repeat spres_step2. Qed.

Lemma spres_number parse_f64 : spres Inv (Scanner.number parse_f64).
Proof.
  unfold Scanner.number, Scanner.skip_digits. repeat spres_step2.
Qed.

Lemma spres_scan_token parse_f64 : spres Inv (Scanner.scan_token parse_f64).
Proof.
  unfold Scanner.scan_token, Scanner.add_token. cbv zeta.
  repeat first [ spres_step2 | apply spres_string | apply spres_number ].
Qed.

End TokensAndErr.


Lemma scan_tokens_ok parse_f64 (P : list Scanner.Token -> option Scanner.Error -> Prop)
    (P_err : forall ts e e', P ts e -> P ts (Some e'))
    (P_push : forall ts e t, P ts e ->
        scanned_kind (Scanner.token_type t) = true -> P (ts ++ [t])%list e)
    (s s1 : Scanner.Scanner) (r : unit) :
  P (Scanner.tokens s1) (Scanner.err s1) ->
  Scanner.sloop (e <- Scanner.is_at_end ;; ret (negb e))
    (s <- gets id ;; Scanner.set_start (Scanner.current s) ;;; Scanner.scan_token parse_f64) s1
    = (s, Ok r) ->
  P (Scanner.tokens s) (Scanner.err s).
Proof.
  intros H0 H.
  refine (spres_sloop (fun s => P (Scanner.tokens s) (Scanner.err s)) _ _ _ _ s1 s r H0 H).
  - apply spres_bind; [apply spres_gets | intros; apply spres_ret].
  - apply spres_bind; [apply spres_gets | intros].
    apply spres_bind; [apply spres_set_start; assumption | intros].
    apply spres_scan_token; assumption.
Qed.

(** X7: a successful [scan] returns tokens ending in exactly one [Eof];
    every token before it is of a kind [scan_token] pushes (no identifier,
    no keyword, no second [Eof]). *)
Theorem scan_ends_with_single_eof parse_f64 (input : string) (toks : list Scanner.Token) :
  Scanner.scan parse_f64 input = Ok toks ->
  exists body eof, toks = (body ++ [eof])%list /\ Scanner.token_type eof = Scanner.Eof
    /\ Forall (fun t => scanned_kind (Scanner.token_type t) = true) body.
Proof.
  unfold Scanner.scan, Scanner.scan_tokens. unfold bind at 1.
  cbn [Scanner.set_source modify]. unfold bind at 1.
  destruct (Scanner.sloop _ _ _) as [s2 [u| [] | |]] eqn:Hl; try discriminate.
  assert (Hinv : Forall (fun t => scanned_kind (Scanner.token_type t) = true)
                        (Scanner.tokens s2)).
  { refine (scan_tokens_ok parse_f64
              (fun ts _ => Forall (fun t => scanned_kind (Scanner.token_type t) = true) ts)
              _ _ _ _ _ _ Hl).
    - intros ts e e' H. exact H.
    - intros ts e t H Ht. apply Forall_app. split; [exact H | repeat constructor; exact Ht].
    - constructor. }
  cbn in Hinv |- *. destruct (Scanner.err s2); intros H; [discriminate|].
  injection H as <-. eexists _, _. split; [reflexivity|]. split; [reflexivity|]. exact Hinv.
Qed.

Lemma ascii_eqb_false_of_nat (c d : ascii) :
  Ascii.nat_of_ascii c <> Ascii.nat_of_ascii d -> Ascii.eqb c d = false.
Proof.
  intros H. destruct (Ascii.eqb c d) eqn:E; [|reflexivity].
  apply Ascii.eqb_eq in E. subst. congruence.
Qed.

Lemma scan_token_letter parse_f64 (s : Scanner.Scanner) (c : ascii) :
  nth_error (Scanner.source s) (Scanner.current s) = Some c ->
  is_ascii_alphabetic c = true ->
  exists s', Scanner.scan_token parse_f64 s = (s', Ok tt) /\ Scanner.err s' <> None.
Proof.
  intros Hc Hl.
  unfold is_ascii_alphabetic in Hl.
  assert (Hn : forall d, ((Ascii.nat_of_ascii d <? 65)
                          || ((90 <? Ascii.nat_of_ascii d) && (Ascii.nat_of_ascii d <? 97))
                          || (122 <? Ascii.nat_of_ascii d))%nat = true ->
                         Ascii.eqb c d = false).
  { intros d Hd. apply ascii_eqb_false_of_nat.
    apply orb_true_iff in Hd as [Hd|Hd]; [apply orb_true_iff in Hd as [Hd|Hd]|];
      try apply andb_true_iff in Hd as [Hd Hd'];
      repeat match goal with H : (_ <? _)%nat = true |- _ => apply Nat.ltb_lt in H end;
    apply orb_true_iff in Hl as [Hl|Hl]; apply andb_true_iff in Hl as [H1 H2];
      apply Nat.leb_le in H1; apply Nat.leb_le in H2; lia. }
  assert (Hdig : Scanner.is_ascii_digit c = false).
  { unfold Scanner.is_ascii_digit.
    apply orb_true_iff in Hl as [Hl|Hl]; apply andb_true_iff in Hl as [H1 H2];
      apply Nat.leb_le in H1; apply Nat.leb_le in H2;
      apply andb_false_iff; right; apply Nat.leb_gt; lia. }
  unfold Scanner.scan_token, Scanner.advance. cbv zeta.
  unfold bind at 1 2 3. cbn [gets id Scanner.set_pos modify ret]. rewrite Hc.
  cbv beta iota delta [ret].
  repeat (rewrite Hn by reflexivity).
  rewrite Hdig. eexists. split; [reflexivity | cbn; discriminate].
Qed.

Lemma while_first {St E} (fuel : nat) (cond : M St E bool) (body : M St E unit)
    (s s1 s2 : St) :
  cond s = (s1, Ok true) -> body s1 = (s2, Ok tt) ->
  while_fuel (S fuel) cond body s = while_fuel fuel cond body s2.
Proof. intros Hc Hb. cbn [while_fuel]. unfold bind. rewrite Hc, Hb. reflexivity. Qed.

(** [scan] is the main loop of [scan_tokens] from the initial scanner,
    followed by the [Eof] token and the test of [err]. *)
Lemma scan_loop parse_f64 (input : string) :
  Scanner.scan parse_f64 input
  = match Scanner.sloop (e <- Scanner.is_at_end ;; ret (negb e))
            (s <- gets id ;; Scanner.set_start (Scanner.current s) ;;;
             Scanner.scan_token parse_f64)
            (Scanner.mkScanner (list_ascii_of_string input) [] None 0 0 1 (-1)) with
    | (s, Ok _) =>
        match Scanner.err s with
        | Some e => Err e
        | None => Ok (Scanner.tokens s ++
                      [Scanner.mkToken Scanner.Eof [] None (Scanner.line s) (Scanner.column s)])%list
        end
    | (_, Err e) => match e with end
    | (_, Panic msg) => Panic msg
    | (_, NoFuel) => NoFuel
    end.
Proof.
  unfold Scanner.scan, Scanner.scan_tokens. unfold bind at 1.
  cbn [Scanner.set_source modify]. unfold bind at 1.
  destruct (Scanner.sloop _ _ _) as [s2 [u| [] | |]]; reflexivity.
Qed.

(** X8: an input starting with an ASCII letter is never scanned
    successfully: letters are invalid characters. *)
Theorem scan_rejects_leading_letter parse_f64 (c : ascii) (rest : string)
    (toks : list Scanner.Token) :
  is_ascii_alphabetic c = true ->
  Scanner.scan parse_f64 (String.String c rest) <> Ok toks.
Proof.
  intros Hl.
  set (s0 := Scanner.mkScanner (c :: list_ascii_of_string rest) [] None 0 0 1 (-1)).
  destruct (scan_token_letter parse_f64 s0 c eq_refl Hl) as [s1 [Hs1 Herr]].
  rewrite scan_loop. unfold Scanner.sloop. fold s0.
  cbn [Scanner.source s0 list_ascii_of_string length].
  rewrite (while_first _ _ _ s0 s0 s1) by (exact eq_refl || exact Hs1).
  destruct (while_fuel _ _ _ s1) as [s2 [u| [] | |]] eqn:Hl2; try discriminate.
  assert (H2 : Scanner.err s2 <> None).
  { refine (spres_while (fun s => Scanner.err s <> None) _ _ _ _ _ s1 s2 u Herr Hl2).
    - apply spres_bind; [apply spres_gets | intros; apply spres_ret].
    - apply spres_bind; [apply spres_gets | intros].
      apply spres_bind; [apply (spres_set_start (fun _ e => e <> None)) | intros].
      apply (spres_scan_token (fun _ e => e <> None)).
      + intros ts e e' _. discriminate.
      + intros ts e t H _. exact H. }
  destruct (Scanner.err s2); [discriminate | congruence].
Qed.

Lemma ascii_eqb_false_range (c d : ascii) (lo hi : nat) :
  ((lo <=? Ascii.nat_of_ascii c) && (Ascii.nat_of_ascii c <=? hi))%nat = true ->
  ((Ascii.nat_of_ascii d <? lo) || (hi <? Ascii.nat_of_ascii d))%nat = true ->
  Ascii.eqb c d = false.
Proof.
  intros Hc Hd. apply ascii_eqb_false_of_nat.
  apply andb_true_iff in Hc as [H1 H2]. apply Nat.leb_le in H1, H2.
  apply orb_true_iff in Hd as [Hd|Hd]; apply Nat.ltb_lt in Hd; lia.
Qed.

Lemma nth_error_Forall {A} (P : A -> Prop) (l : list A) (i : nat) (x : A) :
  Forall P l -> nth_error l i = Some x -> P x.
Proof.
  intros HF Hi. apply nth_error_In in Hi. rewrite List.Forall_forall in HF. exact (HF x Hi).
Qed.

Lemma advance_at (s : Scanner.Scanner) (c : ascii) :
  nth_error (Scanner.source s) (Scanner.current s) = Some c ->
  Scanner.advance s = (moved s, Ok c).
Proof. intros H. destruct s. unfold Scanner.advance, bind. cbn in *. rewrite H. reflexivity. Qed.

Lemma peek_at (s : Scanner.Scanner) (c : ascii) :
  nth_error (Scanner.source s) (Scanner.current s) = Some c ->
  Scanner.peek s = (s, Ok c).
Proof.
  intros H. unfold Scanner.peek, gets.
  assert (Hlt : (Scanner.current s < length (Scanner.source s))%nat)
    by (apply nth_error_Some; congruence).
  replace (length (Scanner.source s) <=? Scanner.current s)%nat with false
    by (symmetry; apply Nat.leb_gt; exact Hlt).
  rewrite (nth_error_nth _ _ Scanner.nul H). reflexivity.
Qed.

Lemma peek_end (s : Scanner.Scanner) :
  (length (Scanner.source s) <= Scanner.current s)%nat -> Scanner.peek s = (s, Ok Scanner.nul).
Proof.
  intros H. unfold Scanner.peek, gets.
  replace (length (Scanner.source s) <=? Scanner.current s)%nat with true
    by (symmetry; apply Nat.leb_le; exact H).
  reflexivity.
Qed.

Lemma is_at_end_at (s : Scanner.Scanner) :
  Scanner.is_at_end s = (s, Ok (length (Scanner.source s) <=? Scanner.current s)%nat).
Proof. reflexivity. Qed.

Section Digits.
Variable ds : list ascii.
Hypothesis Hds : Forall (fun c => Scanner.is_ascii_digit c = true) ds.

Lemma skip_digits_run (k : nat) : forall (fuel : nat) (s : Scanner.Scanner),
  Scanner.source s = ds -> (Scanner.current s + k = length ds)%nat -> (k < fuel)%nat ->
  while_fuel fuel (p <- Scanner.peek ;; ret (Scanner.is_ascii_digit p))
    (_ <- Scanner.advance ;; ret tt) s
  = (Scanner.mkScanner (Scanner.source s) (Scanner.tokens s) (Scanner.err s)
       (Scanner.start s) (Scanner.current s + k) (Scanner.line s)
       (Scanner.column s + Z.of_nat k), Ok tt).
Proof.
  induction k as [|k IH]; intros fuel s Hsrc Hcur Hfuel;
    (destruct fuel as [|fuel]; [lia|]); cbn [while_fuel].
  - rewrite (bind_ok _ _ s s false).
    2:{ rewrite (bind_ok _ _ s s Scanner.nul) by (apply peek_end; rewrite Hsrc; lia). reflexivity. }
    destruct s; cbn in *. rewrite Nat.add_0_r, Z.add_0_r. reflexivity.
  - assert (Hlt : (Scanner.current s < length ds)%nat) by lia.
    rewrite <- Hsrc in Hlt. apply nth_error_Some in Hlt.
    destruct (nth_error (Scanner.source s) (Scanner.current s)) as [d|] eqn:Hd; [|congruence].
    assert (Hdig : Scanner.is_ascii_digit d = true)
      by (rewrite Hsrc in Hd; exact (nth_error_Forall _ _ _ _ Hds Hd)).
    rewrite (bind_ok _ _ s s true).
    2:{ rewrite (bind_ok _ _ s s d) by (apply peek_at; exact Hd). rewrite Hdig. reflexivity. }
    cbv beta iota.
    rewrite (bind_ok _ _ s (moved s) tt).
    2:{ rewrite (bind_ok _ _ s (moved s) d) by (apply advance_at; exact Hd). reflexivity. }
    rewrite IH by (cbn; first [exact Hsrc | lia]). destruct s; cbn. f_equal. f_equal; lia.
Qed.

Lemma number_digits parse_f64 (s : Scanner.Scanner) :
  Scanner.source s = ds -> Scanner.start s = 0%nat -> (Scanner.current s <= length ds)%nat ->
  let s' := Scanner.mkScanner ds (Scanner.tokens s) (Scanner.err s) 0 (length ds) (Scanner.line s)
              (Scanner.column s + Z.of_nat (length ds - Scanner.current s)) in
  Scanner.number parse_f64 s
  = match Scanner.parse_u64 ds with
    | Some n =>
        (Scanner.mkScanner ds
           (Scanner.tokens s ++ [Scanner.mkToken Scanner.Int ds (Some (Scanner.LInt n))
                                   (Scanner.line s) (Scanner.column s')])%list
           (Scanner.err s) 0 (length ds) (Scanner.line s) (Scanner.column s'), Ok tt)
    | None => (s', Panic "called `Result::unwrap()` on an `Err` value")
    end.
Proof.
  intros Hsrc Hst Hcur s'.
  unfold Scanner.number.
  rewrite (bind_ok _ _ s s' tt).
  2:{ unfold Scanner.skip_digits, Scanner.sloop.
      rewrite (skip_digits_run (length ds - Scanner.current s)) by (first [exact Hsrc | rewrite ?Hsrc; lia]).
      unfold s'. destruct s; cbn in *. subst. f_equal. f_equal. lia. }
  assert (Hend : (length (Scanner.source s') <= Scanner.current s')%nat) by (cbn; lia).
  rewrite (bind_ok _ _ s' s' Scanner.nul) by (apply peek_end; exact Hend).
  rewrite (bind_ok _ _ s' s' Scanner.nul)
    by (unfold Scanner.peek_next, gets; cbn; rewrite (proj2 (Nat.leb_le _ _)) by lia; reflexivity).
  rewrite (bind_ok _ _ s' s' true) by reflexivity.
  rewrite (bind_ok _ _ s' s' s') by reflexivity.
  unfold slice. cbn [Scanner.source Scanner.start Scanner.current s' skipn].
  rewrite (proj2 (Nat.leb_le 0 (length ds))) by lia.
  rewrite Nat.leb_refl. cbn [andb]. rewrite Nat.sub_0_r, firstn_all. change (skipn 0 ds) with ds.
  destruct (Scanner.parse_u64 ds) as [n|]; [|reflexivity].
  unfold Scanner.add_token_literal.
  rewrite (bind_ok _ _ s' s' s') by reflexivity.
  unfold slice. cbn [Scanner.source Scanner.start Scanner.current s' skipn].
  rewrite (proj2 (Nat.leb_le 0 (length ds))) by lia.
  rewrite Nat.leb_refl. cbn [andb]. rewrite Nat.sub_0_r, firstn_all. change (skipn 0 ds) with ds.
  reflexivity.
Qed.

End Digits.

Lemma bind_panic {St E A B} (m : M St E A) (k : A -> M St E B) (s s' : St) (msg : string) :
  m s = (s', Panic msg) -> bind m k s = (s', Panic msg).
Proof. intros H. unfold bind. rewrite H. reflexivity. Qed.

Lemma scan_token_digit parse_f64 (s : Scanner.Scanner) (c : ascii) :
  nth_error (Scanner.source s) (Scanner.current s) = Some c ->
  Scanner.is_ascii_digit c = true ->
  Scanner.scan_token parse_f64 s = Scanner.number parse_f64 (moved s).
Proof.
  intros Hc Hdig.
  assert (Hn : forall d, ((Ascii.nat_of_ascii d <? 48) || (57 <? Ascii.nat_of_ascii d))%nat = true ->
                         Ascii.eqb c d = false)
    by (intros d Hd; exact (ascii_eqb_false_range c d 48 57 Hdig Hd)).
  unfold Scanner.scan_token.
  rewrite (bind_ok _ _ s (moved s) c) by (apply advance_at; exact Hc).
  cbv zeta.
  repeat (rewrite Hn by reflexivity).
  rewrite Hdig. reflexivity.
Qed.

(** X9: a nonempty run of ASCII digits scans to one [Int] token whose
    value is the decimal number of the digits, followed by [Eof]; it panics
    when the number does not fit in [u64]. *)
Theorem scan_numeral parse_f64 (ds : list ascii) :
  ds <> [] -> Forall (fun c => Scanner.is_ascii_digit c = true) ds ->
  Scanner.scan parse_f64 (string_of_list_ascii ds)
  = match Scanner.parse_u64 ds with
    | Some n =>
        Ok [Scanner.mkToken Scanner.Int ds (Some (Scanner.LInt n)) 1 (Z.of_nat (length ds) - 1);
            Scanner.mkToken Scanner.Eof [] None 1 (Z.of_nat (length ds) - 1)]
    | None => Panic "called `Result::unwrap()` on an `Err` value"
    end.
Proof.
  intros Hne Hds.
  destruct ds as [|d rest] eqn:Hds0; [congruence|]. rewrite <- Hds0 in Hds |- *.
  assert (Hd : Scanner.is_ascii_digit d = true)
    by (apply (nth_error_Forall _ ds 0 d Hds); rewrite Hds0; reflexivity).
  rewrite scan_loop, list_ascii_of_string_of_list_ascii.
  set (s0 := Scanner.mkScanner ds [] None 0 0 1 (-1)).
  unfold Scanner.sloop. cbn [Scanner.source s0].
  rewrite Hds0 at 1. cbn [length while_fuel].
  rewrite (bind_ok _ _ s0 s0 true) by (cbn; rewrite Hds0; reflexivity).
  cbv beta iota.
  assert (Hbody : (s <- gets id ;; Scanner.set_start (Scanner.current s) ;;;
                   Scanner.scan_token parse_f64) s0 = Scanner.number parse_f64 (moved s0)).
  { rewrite (bind_ok _ _ s0 s0 s0) by reflexivity.
    rewrite (bind_ok _ _ s0 s0 tt) by reflexivity.
    apply (scan_token_digit parse_f64 s0 d); [cbn; rewrite Hds0; reflexivity | exact Hd]. }
  pose proof (number_digits ds Hds parse_f64 (moved s0) eq_refl eq_refl) as Hnum.
  cbv zeta in Hnum. rewrite Hnum in Hbody by (cbn; rewrite Hds0; cbn; lia). clear Hnum.
  destruct (Scanner.parse_u64 ds) as [n|].
  - rewrite (bind_ok _ _ _ _ tt Hbody).
    cbn [while_fuel].
    rewrite (bind_ok _ _ _ _ false) by (cbn; rewrite Nat.leb_refl; reflexivity).
    cbn. assert (Hlen : (1 <= length ds)%nat) by (rewrite Hds0; cbn; lia).
    replace (-1 + 1 + Z.of_nat (length ds - 1))%Z with (Z.of_nat (length ds) - 1)%Z by lia.
    reflexivity.
  - rewrite (bind_panic _ _ _ _ _ Hbody). reflexivity.
Qed.

Lemma nth_error_skipn_hd {A} (l cs : list A) (i : nat) (x : A) :
  skipn i l = x :: cs -> nth_error l i = Some x.
Proof. intros H. exact (proj1 (skipn_cons_nth l i x cs H)). Qed.

Lemma skipn_S_tail {A} (l cs : list A) (i : nat) (x : A) :
  skipn i l = x :: cs -> skipn (S i) l = cs.
Proof. intros H. exact (proj2 (skipn_cons_nth l i x cs H)). Qed.

Lemma is_at_end_inside (s : Scanner.Scanner) (c : ascii) :
  nth_error (Scanner.source s) (Scanner.current s) = Some c ->
  Scanner.is_at_end s = (s, Ok false).
Proof.
  intros H. rewrite is_at_end_at. do 2 f_equal. apply Nat.leb_gt, nth_error_Some. congruence.
Qed.

Lemma string_body_run (cs : list ascii) : forall (fuel : nat) (s : Scanner.Scanner) rest,
  skipn (Scanner.current s) (Scanner.source s) = (cs ++ Scanner.quote :: rest)%list ->
  Forall string_char_ok cs -> (length cs < fuel)%nat ->
  while_fuel fuel
    (p <- Scanner.peek ;;
     if Ascii.eqb p Scanner.quote then ret false else
     e <- Scanner.is_at_end ;; ret (negb e))
    (p <- Scanner.peek ;;
     if Ascii.eqb p Scanner.backslash then panic todo_msg else
     (if Ascii.eqb p Scanner.newline then s <- gets id ;; Scanner.set_line (Scanner.line s + 1)
      else ret tt) ;;;
     _ <- Scanner.advance ;; ret tt) s
  = (Scanner.mkScanner (Scanner.source s) (Scanner.tokens s) (Scanner.err s) (Scanner.start s)
       (Scanner.current s + length cs) (Scanner.line s + count_newlines cs)
       (Scanner.column s + Z.of_nat (length cs)), Ok tt).
Proof.
  induction cs as [|c cs IH]; intros fuel s rest Hskip Hok Hfuel;
    (destruct fuel as [|fuel]; [cbn in Hfuel; lia|]); cbn [while_fuel].
  - pose proof (nth_error_skipn_hd _ _ _ _ Hskip) as Hq.
    rewrite (bind_ok _ _ s s false).
    2:{ rewrite (bind_ok _ _ s s Scanner.quote) by (apply peek_at; exact Hq). reflexivity. }
    destruct s; cbn. rewrite Nat.add_0_r, Nat.add_0_r, Z.add_0_r. reflexivity.
  - inversion Hok as [|? ? [Hcq Hcb] Hok']; subst.
    cbn [app] in Hskip.
    pose proof (nth_error_skipn_hd _ _ _ _ Hskip) as Hc.
    pose proof (skipn_S_tail _ _ _ _ Hskip) as Hskip'.
    rewrite (bind_ok _ _ s s true).
    2:{ rewrite (bind_ok _ _ s s c) by (apply peek_at; exact Hc). rewrite Hcq.
        rewrite (bind_ok _ _ s s false) by (apply (is_at_end_inside s c Hc)). reflexivity. }
    cbv beta iota.
    set (s1 := Scanner.mkScanner (Scanner.source s) (Scanner.tokens s) (Scanner.err s)
                 (Scanner.start s) (Scanner.current s)
                 (Scanner.line s + if Ascii.eqb c Scanner.newline then 1 else 0)
                 (Scanner.column s)).
    rewrite (bind_ok _ _ s (moved s1) tt).
    2:{ rewrite (bind_ok _ _ s s c) by (apply peek_at; exact Hc). rewrite Hcb.
        rewrite (bind_ok _ _ s s1 tt).
        2:{ destruct (Ascii.eqb c Scanner.newline); unfold s1; destruct s; cbn;
            [reflexivity | rewrite Nat.add_0_r; reflexivity]. }
        rewrite (bind_ok _ _ s1 (moved s1) c) by (apply advance_at; exact Hc). reflexivity. }
    rewrite (IH fuel (moved s1) rest) by (first [exact Hok' | cbn in Hfuel |- *; lia |
      unfold moved, s1; cbn [Scanner.current Scanner.source]; rewrite Nat.add_1_r; exact Hskip']).
    unfold s1, count_newlines. destruct s; cbn.
    destruct (Ascii.eqb c Scanner.newline); cbn; f_equal; f_equal; lia.
Qed.

Lemma firstn_app_exact {A} (l r : list A) : firstn (length l) (l ++ r) = l.
Proof. rewrite firstn_app, Nat.sub_diag, firstn_all. cbn. apply app_nil_r. Qed.

Lemma string_run (body : list ascii) (s : Scanner.Scanner) :
  let src := (Scanner.quote :: body ++ [Scanner.quote])%list in
  Forall string_char_ok body ->
  Scanner.source s = src -> Scanner.start s = 0%nat -> Scanner.current s = 1%nat ->
  let ln := (Scanner.line s + count_newlines body)%nat in
  let col := (Scanner.column s + Z.of_nat (length body) + 1)%Z in
  Scanner.string_ s
  = (Scanner.mkScanner src
       (Scanner.tokens s ++
        [Scanner.mkToken Scanner.String src (Some (Scanner.Str (string_of_list_ascii body)))
           ln col])%list
       (Scanner.err s) 0 (length src) ln col, Ok tt).
Proof.
  intros src Hok Hsrc Hst Hcur ln col.
  assert (Hlen : length src = (length body + 2)%nat)
    by (unfold src; cbn; rewrite length_app; cbn; lia).
  set (s1 := Scanner.mkScanner src (Scanner.tokens s) (Scanner.err s) 0
               (1 + length body) ln (Scanner.column s + Z.of_nat (length body))).
  assert (Hq : nth_error src (1 + length body) = Some Scanner.quote).
  { unfold src. cbn [nth_error Nat.add]. rewrite nth_error_app2 by lia.
    rewrite Nat.sub_diag. reflexivity. }
  unfold Scanner.string_.
  rewrite (bind_ok _ _ s s1 tt).
  2:{ unfold Scanner.sloop.
      rewrite (string_body_run body _ s []); [| rewrite Hsrc, Hcur; reflexivity | exact Hok |
                                             rewrite Hsrc, Hlen; lia].
      unfold s1, ln. destruct s; cbn in *. subst. reflexivity. }
  cbv beta.
  rewrite (bind_ok _ _ s1 s1 false) by (apply (is_at_end_inside s1 Scanner.quote Hq)).
  cbv beta iota. rewrite (bind_ok _ _ s1 s1 tt) by reflexivity. cbv beta.
  rewrite (bind_ok _ _ s1 s1 Scanner.quote) by (apply peek_at; exact Hq).
  cbv beta iota. change (negb (Ascii.eqb Scanner.quote Scanner.quote)) with false. cbv iota.
  rewrite (bind_ok _ _ s1 (moved s1) Scanner.quote) by (apply advance_at; exact Hq).
  rewrite (bind_ok _ _ (moved s1) (moved s1) (moved s1)) by reflexivity.
  unfold slice. cbn [moved s1 Scanner.source Scanner.start Scanner.current].
  replace (1 + length body + 1 - 1)%nat with (1 + length body)%nat by lia.
  rewrite Hlen.
  replace ((0 + 1 <=? 1 + length body) && (1 + length body <=? length body + 2))%nat with true
    by (symmetry; apply andb_true_iff; split; apply Nat.leb_le; lia).
  replace (1 + length body - (0 + 1))%nat with (length body) by lia.
  replace (skipn (0 + 1) src) with (body ++ [Scanner.quote])%list by reflexivity.
  rewrite firstn_app_exact.
  unfold Scanner.add_token_literal.
  rewrite (bind_ok _ _ (moved s1) (moved s1) (moved s1)) by reflexivity.
  unfold slice. cbn [moved s1 Scanner.source Scanner.start Scanner.current].
  rewrite Hlen.
  replace ((0 <=? 1 + length body + 1) && (1 + length body + 1 <=? length body + 2))%nat with true
    by (symmetry; apply andb_true_iff; split; apply Nat.leb_le; lia).
  cbn [skipn]. unfold col. cbn.
  replace (length body + 1)%nat with (length (body ++ [Scanner.quote])%list)
    by (rewrite length_app; cbn; lia).
  rewrite firstn_all. unfold Scanner.push_token, modify, moved, s1. cbn.
  f_equal. f_equal; try reflexivity; lia.
Qed.

Lemma scan_token_quote parse_f64 (s : Scanner.Scanner) :
  nth_error (Scanner.source s) (Scanner.current s) = Some Scanner.quote ->
  Scanner.scan_token parse_f64 s = Scanner.string_ (moved s).
Proof.
  intros Hc.
  assert (Hn : forall d, negb (Ascii.eqb Scanner.quote d) = true -> Ascii.eqb Scanner.quote d = false)
    by (intros d; destruct (Ascii.eqb Scanner.quote d); cbn; congruence).
  unfold Scanner.scan_token.
  rewrite (bind_ok _ _ s (moved s) Scanner.quote) by (apply advance_at; exact Hc).
  cbv zeta.
  repeat (rewrite Hn by reflexivity).
  reflexivity.
Qed.

(** X10: a double-quoted string with no quote and no backslash inside
    scans to one [String] token whose literal is the text between the quotes,
    then [Eof]; the line counts the newlines inside. *)
Theorem scan_string_literal parse_f64 (body : list ascii) :
  Forall string_char_ok body ->
  let src := (Scanner.quote :: body ++ [Scanner.quote])%list in
  Scanner.scan parse_f64 (string_of_list_ascii src)
  = Ok [Scanner.mkToken Scanner.String src (Some (Scanner.Str (string_of_list_ascii body)))
          (1 + count_newlines body) (Z.of_nat (length body) + 1);
        Scanner.mkToken Scanner.Eof [] None
          (1 + count_newlines body) (Z.of_nat (length body) + 1)].
Proof.
  intros Hok src.
  assert (Hlen : length src = (length body + 2)%nat)
    by (unfold src; cbn; rewrite length_app; cbn; lia).
  rewrite scan_loop, list_ascii_of_string_of_list_ascii.
  set (s0 := Scanner.mkScanner src [] None 0 0 1 (-1)).
  unfold Scanner.sloop. cbn [Scanner.source s0].
  rewrite Hlen. cbn [while_fuel Nat.add].
  rewrite (bind_ok _ _ s0 s0 true) by reflexivity.
  cbv beta iota.
  pose proof (string_run body (moved s0) Hok eq_refl eq_refl eq_refl) as Hstr.
  cbv zeta in Hstr.
  match type of Hstr with _ = (?s2, _) => rewrite (bind_ok _ _ s0 s2 tt) end.
  2:{ rewrite (bind_ok _ _ s0 s0 s0) by reflexivity.
      rewrite (bind_ok _ _ s0 s0 tt) by reflexivity.
      rewrite (scan_token_quote parse_f64 s0 eq_refl). exact Hstr. }
  replace (length body + 2)%nat with (S (S (length body))) by lia. cbn [while_fuel].
  rewrite (bind_ok _ _ _ _ false) by (cbn; fold src; rewrite Nat.leb_refl; reflexivity).
  cbn. fold src. replace (-1 + 1 + Z.of_nat (length body) + 1)%Z with (Z.of_nat (length body) + 1)%Z by lia.
  reflexivity.
Qed.

Lemma advance_end (s : Scanner.Scanner) :
  (length (Scanner.source s) <= Scanner.current s)%nat ->
  Scanner.advance s = (moved s, Panic oob_msg).
Proof.
  intros H. destruct s. unfold Scanner.advance, bind. cbn in *.
  rewrite (proj2 (nth_error_None _ _) H). reflexivity.
Qed.

Lemma comment_run (cs : list ascii) : forall (fuel : nat) (s : Scanner.Scanner),
  skipn (Scanner.current s) (Scanner.source s) = cs ->
  Forall (fun c => Ascii.eqb c Scanner.newline = false) cs -> (length cs < fuel)%nat ->
  exists s', while_fuel fuel (p <- Scanner.peek ;; ret (negb (Ascii.eqb p Scanner.newline)))
                        (_ <- Scanner.advance ;; ret tt) s = (s', Panic oob_msg).
Proof.
  induction cs as [|c cs IH]; intros fuel s Hskip Hok Hfuel;
    (destruct fuel as [|fuel]; [cbn in Hfuel; lia|]); cbn [while_fuel].
  - assert (Hend : (length (Scanner.source s) <= Scanner.current s)%nat).
    { pose proof (f_equal (@length ascii) Hskip) as Hl.
      rewrite length_skipn in Hl. cbn in Hl. lia. }
    rewrite (bind_ok _ _ s s true).
    2:{ rewrite (bind_ok _ _ s s Scanner.nul) by (apply peek_end; exact Hend). reflexivity. }
    cbv beta iota. exists (moved s).
    apply bind_panic, bind_panic, advance_end, Hend.
  - inversion Hok as [|? ? Hc Hok']; subst.
    pose proof (nth_error_skipn_hd _ _ _ _ Hskip) as Hn.
    pose proof (skipn_S_tail _ _ _ _ Hskip) as Hskip'.
    rewrite (bind_ok _ _ s s true).
    2:{ rewrite (bind_ok _ _ s s c) by (apply peek_at; exact Hn). rewrite Hc. reflexivity. }
    cbv beta iota.
    rewrite (bind_ok _ _ s (moved s) tt).
    2:{ rewrite (bind_ok _ _ s (moved s) c) by (apply advance_at; exact Hn). reflexivity. }
    apply IH; [| exact Hok' | cbn in Hfuel; lia].
    unfold moved. cbn [Scanner.current Scanner.source]. rewrite Nat.add_1_r. exact Hskip'.
Qed.

(** After [//], [scan_token] skips to the next newline. *)
Lemma scan_token_comment parse_f64 (s : Scanner.Scanner) :
  nth_error (Scanner.source s) (Scanner.current s) = Some "/"%char ->
  nth_error (Scanner.source s) (S (Scanner.current s)) = Some "/"%char ->
  Scanner.scan_token parse_f64 s
  = Scanner.sloop (p <- Scanner.peek ;; ret (negb (Ascii.eqb p Scanner.newline)))
                  (_ <- Scanner.advance ;; ret tt) (moved (moved s)).
Proof.
  intros H1 H2.
  assert (Hn : forall d, negb (Ascii.eqb "/"%char d) = true -> Ascii.eqb "/"%char d = false)
    by (intros d; destruct (Ascii.eqb "/"%char d); cbn; congruence).
  unfold Scanner.scan_token.
  rewrite (bind_ok _ _ s (moved s) "/"%char) by (apply advance_at; exact H1).
  cbv zeta.
  repeat (rewrite Hn by reflexivity).
  change (Ascii.eqb "/"%char "/"%char) with true. cbv iota.
  assert (H2' : nth_error (Scanner.source (moved s)) (Scanner.current (moved s)) = Some "/"%char)
    by (unfold moved; cbn; rewrite Nat.add_1_r; exact H2).
  rewrite (bind_ok _ _ (moved s) (moved (moved s)) true).
  2:{ unfold Scanner.matches.
      rewrite (bind_ok _ _ _ _ false) by (apply (is_at_end_inside _ _ H2')).
      cbv beta iota.
      rewrite (bind_ok _ _ _ (moved s) (moved s)) by reflexivity.
      rewrite (nth_error_nth _ _ Scanner.nul H2'). reflexivity. }
  reflexivity.
Qed.

(** X11: a [//] comment not ended by a newline makes [scan] panic with an
    out-of-bounds index. *)
Theorem scan_unterminated_comment_panics parse_f64 (rest : list ascii) :
  Forall (fun c => Ascii.eqb c Scanner.newline = false) rest ->
  Scanner.scan parse_f64 (string_of_list_ascii ("/" :: "/" :: rest)%char) = Panic oob_msg.
Proof.
  intros Hok.
  rewrite scan_loop, list_ascii_of_string_of_list_ascii.
  set (s0 := Scanner.mkScanner ("/" :: "/" :: rest)%char [] None 0 0 1 (-1)).
  unfold Scanner.sloop. cbn [Scanner.source s0 length while_fuel].
  rewrite (bind_ok _ _ s0 s0 true) by reflexivity.
  cbv beta iota.
  destruct (comment_run rest (S (length (Scanner.source (moved (moved s0))))) (moved (moved s0)))
    as [s' Hs']; [reflexivity | exact Hok | cbn; lia |].
  rewrite (bind_panic _ _ s0 s' oob_msg); [reflexivity|].
  rewrite (bind_ok _ _ s0 s0 s0) by reflexivity.
  rewrite (bind_ok _ _ s0 s0 tt) by reflexivity.
  rewrite (scan_token_comment parse_f64 s0 eq_refl eq_refl). exact Hs'.
Qed.

Lemma scan_token_blank parse_f64 (s : Scanner.Scanner) (c : ascii) :
  nth_error (Scanner.source s) (Scanner.current s) = Some c -> is_blank c = true ->
  exists s', Scanner.scan_token parse_f64 s = (s', Ok tt)
    /\ Scanner.source s' = Scanner.source s /\ Scanner.tokens s' = Scanner.tokens s
    /\ Scanner.err s' = Scanner.err s /\ Scanner.current s' = S (Scanner.current s)
    /\ Scanner.line s' = (Scanner.line s + if Ascii.eqb c Scanner.newline then 1 else 0)%nat.
Proof.
  intros Hc Hb.
  assert (Hn : forall d, negb (Ascii.eqb c d) = true -> Ascii.eqb c d = false)
    by (intros d; destruct (Ascii.eqb c d); cbn; congruence).
  unfold Scanner.scan_token.
  rewrite (bind_ok _ _ s (moved s) c) by (apply advance_at; exact Hc).
  cbv zeta.
  unfold is_blank in Hb.
  repeat match type of Hb with
         | (_ || _)%bool = true => apply orb_true_iff in Hb as [Hb|Hb]
         end; apply Ascii.eqb_eq in Hb; subst c;
    repeat (rewrite Hn by reflexivity); rewrite Ascii.eqb_refl; cbn [orb].
  all: try rewrite (Hn Scanner.newline) by reflexivity.
  all: eexists; split; [reflexivity|]; destruct s; cbn; repeat split; lia.
Qed.

Lemma blank_run parse_f64 (cs : list ascii) : forall (fuel : nat) (s : Scanner.Scanner),
  skipn (Scanner.current s) (Scanner.source s) = cs ->
  Forall (fun c => is_blank c = true) cs -> (length cs < fuel)%nat ->
  exists s', while_fuel fuel (e <- Scanner.is_at_end ;; ret (negb e))
               (s <- gets id ;; Scanner.set_start (Scanner.current s) ;;;
                Scanner.scan_token parse_f64) s = (s', Ok tt)
    /\ Scanner.source s' = Scanner.source s /\ Scanner.tokens s' = Scanner.tokens s
    /\ Scanner.err s' = Scanner.err s
    /\ Scanner.line s' = (Scanner.line s + count_newlines cs)%nat.
Proof.
  induction cs as [|c cs IH]; intros fuel s Hskip Hok Hfuel;
    (destruct fuel as [|fuel]; [cbn in Hfuel; lia|]); cbn [while_fuel].
  - assert (Hend : (length (Scanner.source s) <= Scanner.current s)%nat).
    { pose proof (f_equal (@length ascii) Hskip) as Hl.
      rewrite length_skipn in Hl. cbn in Hl. lia. }
    rewrite (bind_ok _ _ s s false).
    2:{ rewrite (bind_ok _ _ s s true)
          by (rewrite is_at_end_at, (proj2 (Nat.leb_le _ _) Hend); reflexivity).
        reflexivity. }
    exists s. split; [reflexivity|]. cbn. rewrite Nat.add_0_r. tauto.
  - inversion Hok as [|? ? Hc Hok']; subst.
    pose proof (nth_error_skipn_hd _ _ _ _ Hskip) as Hn.
    pose proof (skipn_S_tail _ _ _ _ Hskip) as Hskip'.
    rewrite (bind_ok _ _ s s true).
    2:{ rewrite (bind_ok _ _ s s false) by (apply (is_at_end_inside s c Hn)). reflexivity. }
    cbv beta iota.
    set (s0 := Scanner.mkScanner (Scanner.source s) (Scanner.tokens s) (Scanner.err s)
                 (Scanner.current s) (Scanner.current s) (Scanner.line s) (Scanner.column s)).
    destruct (scan_token_blank parse_f64 s0 c Hn Hc)
      as [s1 [Hs1 [Hsrc [Htok [Herr [Hcur Hline]]]]]].
    rewrite (bind_ok _ _ s s1 tt).
    2:{ rewrite (bind_ok _ _ s s s) by reflexivity.
        rewrite (bind_ok _ _ s s0 tt) by reflexivity. exact Hs1. }
    destruct (IH fuel s1) as [s2 [Hs2 [Hsrc2 [Htok2 [Herr2 Hline2]]]]];
      [rewrite Hsrc, Hcur; exact Hskip' | exact Hok' | cbn in Hfuel; lia |].
    exists s2. rewrite Hs2. split; [reflexivity|].
    rewrite Hsrc2, Htok2, Herr2, Hline2, Hline, Hsrc, Htok, Herr.
    unfold count_newlines. cbn [List.filter]. cbn.
    destruct (Ascii.eqb c Scanner.newline); cbn; repeat split; lia.
Qed.

(** X12: an input of spaces, tabs, carriage returns and newlines scans to
    the single [Eof] token, on line one plus the number of newlines. *)
Theorem scan_blank_input parse_f64 (cs : list ascii) :
  Forall (fun c => is_blank c = true) cs ->
  exists col, Scanner.scan parse_f64 (string_of_list_ascii cs)
              = Ok [Scanner.mkToken Scanner.Eof [] None (1 + count_newlines cs) col].
Proof.
  intros Hok.
  rewrite scan_loop, list_ascii_of_string_of_list_ascii. unfold Scanner.sloop.
  destruct (blank_run parse_f64 cs (S (length cs)) (Scanner.mkScanner cs [] None 0 0 1 (-1)))
    as [s' [Hs [Hsrc [Htok [Herr Hline]]]]]; [reflexivity | exact Hok | lia |].
  cbn [Scanner.source]. rewrite Hs. cbn in Htok, Herr, Hline. rewrite Herr, Htok, Hline.
  eexists. reflexivity.
Qed.


(* ------------------------------------------------------------------ *)
(** ** The parser: errors of the first statement *)

Lemma bind_err {St E A B} (m : M St E A) (k : A -> M St E B) (s s' : St) (e : E) :
  m s = (s', Err e) -> bind m k s = (s', Err e).
Proof. intros H. unfold bind. rewrite H. reflexivity. Qed.

Lemma unary_rejects (f : nat) (T : list Token.Token) (i : nat) (t : Token.Token) :
  nth_error T i = Some t -> ~ In (Token.token_type t) (Token.Eof :: expression_starts) ->
  Parser.unary (S f) (Parser.mkParser T i)
  = (Parser.mkParser T i,
     Err (Parser.ExpectedExpression (Token.token_type t) (Token.t_line t) (Token.t_column t))).
Proof.
  intros Hi Hk. destruct t as [k lx lit ln col]; cbn in Hk.
  cbn [Parser.unary].
  destruct k; try (exfalso; apply Hk; cbn; tauto); parser_run Hi; reflexivity.
Qed.

Lemma expression_rejects (f : nat) (T : list Token.Token) (i : nat) (t : Token.Token) :
  nth_error T i = Some t -> ~ In (Token.token_type t) (Token.Eof :: expression_starts) ->
  Parser.expression (S (S f)) (Parser.mkParser T i)
  = (Parser.mkParser T i,
     Err (Parser.ExpectedExpression (Token.token_type t) (Token.t_line t) (Token.t_column t))).
Proof.
  intros Hi Hk. pose proof (unary_rejects f T i t Hi Hk) as Hu.
  cbn [Parser.expression].
  unfold Parser.assignment, Parser.equality, Parser.comparison, Parser.term, Parser.factor,
    Parser.binary_level.
  do 5 apply bind_err. exact Hu.
Qed.

(** X13: when the first token can start neither a declaration, a print
    statement nor an expression, [parse] returns the error [Expected ';']
    on it, or panics on the [unwrap] when that token is a [;]. *)
Theorem parse_discards_expression_error (t : Token.Token) (rest : list Token.Token) :
  ~ In (Token.token_type t) (Token.Var :: Token.Print :: Token.Eof :: expression_starts) ->
  Parser.parse (t :: rest)
  = if Token.TokenType_beq (Token.token_type t) Token.Semicolon
    then Panic "called `Result::unwrap()` on an `Err` value"
    else Err (Parser.TokenMismatch Token.Semicolon t (Some "Expected ';'")).
Proof.
  intros Hk.
  assert (He : Parser.expression_top (Parser.mkParser (t :: rest) 0)
               = (Parser.mkParser (t :: rest) 0,
                  Err (Parser.ExpectedExpression (Token.token_type t) (Token.t_line t)
                         (Token.t_column t)))).
  { unfold Parser.expression_top, Parser.expr_fuel.
    replace (2 * length (Parser.ptokens (Parser.mkParser (t :: rest) 0)) + 2)%nat
      with (S (S (2 * length rest + 2))) by (cbn; lia).
    apply expression_rejects; [reflexivity | intros H; apply Hk; cbn in *; tauto]. }
  unfold Parser.parse, Parser.parse_stmts. cbn [Parser.ptokens length Parser.parse_loop].
  destruct t as [k lx lit ln col]; cbn in Hk.
  destruct k; try (exfalso; apply Hk; cbn; tauto);
    repeat progress (try rewrite He;
      cbv beta iota zeta delta [Parser.declaration Parser.statement Parser.expression_statement
        Parser.matches Parser.check Parser.is_at_end Parser.peek Parser.advance Parser.consume
        Parser.previous bind ret modify lift throw panic capture unwrap Token.TokenType_beq
        Parser.ptokens Parser.pcurrent Token.token_type nth_error]);
    reflexivity.
Qed.


(* ------------------------------------------------------------------ *)
(** ** The parser never indexes out of bounds *)

Section Hoare.
Variable G : Parser.Parser -> Prop.

Lemma ht_conseq {A} (P P' : Parser.Parser -> Prop) (m : Parser.PM A)
    (Q Q' : A -> Parser.Parser -> Prop) :
  (forall p, P p -> P' p) -> (forall a p, Q' a p -> Q a p) ->
  htriple G P' m Q' -> htriple G P m Q.
Proof.
  intros HP HQ H p Hp. specialize (H p (HP p Hp)).
  destruct (m p) as [p' [a|e|msg|]]; auto.
Qed.

Lemma ht_ret {A} (P : Parser.Parser -> Prop) (a : A) (Q : A -> Parser.Parser -> Prop) :
  (forall p, P p -> Q a p) -> htriple G P (ret a) Q.
Proof. intros H p Hp. exact (H p Hp). Qed.

Lemma ht_throw {A} (P : Parser.Parser -> Prop) (e : Parser.SyntaxError)
    (Q : A -> Parser.Parser -> Prop) :
  (forall p, P p -> G p) -> htriple G P (throw e) Q.
Proof. intros H p Hp. exact (H p Hp). Qed.

Lemma ht_panic {A} (P : Parser.Parser -> Prop) (msg : string) (Q : A -> Parser.Parser -> Prop) :
  ~ bounds_panic msg -> htriple G P (panic msg) Q.
Proof. intros H p _. exact H. Qed.

Lemma ht_fuel {A} (P : Parser.Parser -> Prop) (Q : A -> Parser.Parser -> Prop) :
  htriple G P out_of_fuel Q.
Proof. intros p _. exact I. Qed.

Lemma ht_bind {A B} (P : Parser.Parser -> Prop) (m : Parser.PM A) (R : A -> Parser.Parser -> Prop)
    (k : A -> Parser.PM B) (Q : B -> Parser.Parser -> Prop) :
  htriple G P m R -> (forall a, htriple G (R a) (k a) Q) -> htriple G P (bind m k) Q.
Proof.
  intros Hm Hk p Hp. specialize (Hm p Hp). unfold bind.
  destruct (m p) as [p' [a|e|msg|]]; auto. exact (Hk a p' Hm).
Qed.

Lemma ht_lift {A} (P : Parser.Parser -> Prop) (o : outcome Parser.SyntaxError A)
    (Q : A -> Parser.Parser -> Prop) :
  (forall p, P p -> match o with
                    | Ok a => Q a p | Err _ => G p
                    | Panic msg => ~ bounds_panic msg | NoFuel => True end) ->
  htriple G P (lift o) Q.
Proof. intros H p Hp. exact (H p Hp). Qed.

(** [capture] turns a syntax error into a value and keeps its state. *)
Lemma ht_capture {A} (P : Parser.Parser -> Prop) (m : Parser.PM A) :
  htriple G P m (fun _ => G) ->
  htriple G P (capture m)
    (fun o p => G p /\ match o with Ok _ | Err _ => True | _ => False end).
Proof.
  intros H p Hp. specialize (H p Hp). unfold capture.
  destruct (m p) as [p' [a|e|msg|]]; auto.
Qed.

Lemma ht_unwrap {A} (P : Parser.Parser -> Prop) (o : outcome Parser.SyntaxError A)
    (Q : A -> Parser.Parser -> Prop) :
  match o with Ok _ | Err _ => True | _ => False end ->
  (forall a p, o = Ok a -> P p -> Q a p) ->
  htriple G P (unwrap o) Q.
Proof.
  intros Ho H p Hp. destruct o as [a|e|msg|]; cbn in *; try contradiction.
  - exact (H a p eq_refl Hp).
  - intros [Hm|Hm]; discriminate Hm.
Qed.

(** A computation that reads the state first. *)
Lemma ht_pure {A} (Phi : Prop) (P : Parser.Parser -> Prop) (m : Parser.PM A)
    (Q : A -> Parser.Parser -> Prop) :
  (Phi -> htriple G P m Q) -> htriple G (fun p => P p /\ Phi) m Q.
Proof. intros H p [Hp Hphi]. exact (H Hphi p Hp). Qed.

Lemma ht_state {A} (P : Parser.Parser -> Prop) (m : Parser.Parser -> Parser.PM A)
    (Q : A -> Parser.Parser -> Prop) :
  (forall p0, htriple G (fun p => P p /\ p = p0) (m p0) Q) ->
  htriple G P (fun p => m p p) Q.
Proof. intros H p Hp. exact (H p p (conj Hp eq_refl)). Qed.

End Hoare.

Section Bounds.
Variables (T : list Token.Token) (j : nat) (eof : Token.Token).
Hypothesis Hj : nth_error T j = Some eof.
Hypothesis Heof : Token.token_type eof = Token.Eof.
Hypothesis Hfirst : forall i t, (i < j)%nat -> nth_error T i = Some t -> Token.token_type t <> Token.Eof.

Let G := in_bounds T j.

Lemma in_bounds_token (p : Parser.Parser) :
  G p -> exists t, nth_error T (Parser.pcurrent p) = Some t /\
                   (Token.token_type t = Token.Eof <-> Parser.pcurrent p = j).
Proof.
  intros [HT Hc].
  destruct (Nat.eq_dec (Parser.pcurrent p) j) as [E|E].
  - exists eof. rewrite E. split; [exact Hj | tauto].
  - assert (Hlt : (Parser.pcurrent p < length T)%nat)
      by (assert (j < length T)%nat by (apply nth_error_Some; congruence); lia).
    destruct (nth_error T (Parser.pcurrent p)) as [t|] eqn:Ht.
    + exists t. split; [reflexivity|]. split; [|lia].
      intros Hk. exfalso. apply (Hfirst (Parser.pcurrent p) t); [lia | exact Ht | exact Hk].
    + apply nth_error_None in Ht. lia.
Qed.

Lemma TokenType_beq_Eof (k : Token.TokenType) :
  Token.TokenType_beq k Token.Eof = true <-> k = Token.Eof.
Proof. destruct k; cbn; split; congruence. Qed.

Lemma is_at_end_run (p : Parser.Parser) :
  G p -> Parser.is_at_end p = (p, Ok (Parser.pcurrent p =? j)%nat).
Proof.
  intros Hp. destruct (in_bounds_token p Hp) as [t [Ht Hiff]].
  unfold Parser.is_at_end, Parser.peek, bind. destruct Hp as [HT _]. rewrite HT, Ht.
  unfold ret. do 2 f_equal.
  destruct (Token.TokenType_beq (Token.token_type t) Token.Eof) eqn:E;
    destruct (Parser.pcurrent p =? j)%nat eqn:E'; try reflexivity; exfalso.
  - apply TokenType_beq_Eof, Hiff in E. apply Nat.eqb_neq in E'. contradiction.
  - apply Nat.eqb_eq, Hiff, TokenType_beq_Eof in E'. congruence.
Qed.

Lemma check_run (p : Parser.Parser) (k : Token.TokenType) :
  G p -> exists b, Parser.check k p = (p, Ok b) /\ (b = true -> (Parser.pcurrent p < j)%nat).
Proof.
  intros Hp. unfold Parser.check. rewrite (bind_ok _ _ _ p _ (is_at_end_run p Hp)).
  destruct (Parser.pcurrent p =? j)%nat eqn:E.
  - exists false. split; [reflexivity | discriminate].
  - destruct (in_bounds_token p Hp) as [t [Ht _]].
    exists (Token.TokenType_beq (Token.token_type t) k). split.
    + unfold Parser.peek, bind. destruct Hp as [HT _]. rewrite HT, Ht. reflexivity.
    + intros _. apply Nat.eqb_neq in E. destruct Hp. lia.
Qed.

Lemma advance_run (p : Parser.Parser) :
  G p -> (Parser.pcurrent p < j)%nat ->
  exists t, Parser.advance p = (Parser.mkParser T (S (Parser.pcurrent p)), Ok t).
Proof.
  intros Hp Hlt. unfold Parser.advance. rewrite (bind_ok _ _ _ p _ (is_at_end_run p Hp)).
  replace (Parser.pcurrent p =? j)%nat with false by (symmetry; apply Nat.eqb_neq; lia).
  destruct (in_bounds_token p Hp) as [t [Ht _]].
  exists t. destruct p as [T' c]. destruct Hp as [HT _]; cbn in HT, Ht |- *; subst T'.
  unfold bind, modify. apply previous_at. exact Ht.
Qed.

Lemma ht_peek : htriple G G Parser.peek (fun _ => G).
Proof.
  intros p Hp. destruct (in_bounds_token p Hp) as [t [Ht _]].
  unfold Parser.peek. destruct Hp as [HT Hc]. rewrite HT, Ht. split; assumption.
Qed.

Lemma ht_is_at_end : htriple G G Parser.is_at_end (fun _ => G).
Proof. intros p Hp. rewrite (is_at_end_run p Hp). exact Hp. Qed.

(** [previous] is safe once [current] has moved past the first token. *)
Lemma ht_previous : htriple G (fun p => G p /\ (1 <= Parser.pcurrent p)%nat) Parser.previous
  (fun _ => G).
Proof.
  intros [T' c] [[HT Hc] H1]; cbn in HT, Hc, H1 |- *. subst T'.
  unfold Parser.previous; cbn. destruct c as [|i]; [lia|].
  assert (Hi : (i < length T)%nat)
    by (assert (j < length T)%nat by (apply nth_error_Some; congruence); lia).
  apply nth_error_Some in Hi. destruct (nth_error T i); [|congruence]. split; cbn; [reflexivity|lia].
Qed.

Lemma ht_matches (k : Token.TokenType) : htriple G G (Parser.matches k) (moved_past T j).
Proof.
  intros p Hp. destruct (check_run p k Hp) as [b [Hc Hb]].
  unfold Parser.matches. rewrite (bind_ok _ _ _ p _ Hc). destruct b.
  - destruct (advance_run p Hp (Hb eq_refl)) as [t Ha].
    rewrite (bind_ok _ _ _ _ _ Ha). split; [split; cbn; [reflexivity | lia] | intros _; cbn; lia].
  - split; [exact Hp | discriminate].
Qed.

Lemma ht_match_one_of (ks : list Token.TokenType) : htriple G G (Parser.match_one_of ks) (moved_past T j).
Proof.
  induction ks as [|k ks IH]; cbn [Parser.match_one_of].
  - apply ht_ret. intros p Hp. split; [exact Hp | discriminate].
  - eapply ht_bind; [apply ht_matches|]. intros [|].
    + apply ht_ret. intros p Hp. exact Hp.
    + eapply ht_conseq; [| | exact IH]; [intros p [Hp _]; exact Hp | intros a p Hp; exact Hp].
Qed.

Lemma ht_consume (k : Token.TokenType) (msg : string) :
  htriple G G (Parser.consume k msg) (fun _ p => G p /\ (1 <= Parser.pcurrent p)%nat).
Proof.
  intros p Hp. destruct (check_run p k Hp) as [b [Hc Hb]].
  unfold Parser.consume. rewrite (bind_ok _ _ _ p _ Hc). destruct b.
  - destruct (advance_run p Hp (Hb eq_refl)) as [t Ha].
    rewrite Ha. split; [split; cbn; [reflexivity | lia] | cbn; lia].
  - destruct (in_bounds_token p Hp) as [t [Ht _]].
    unfold Parser.peek, bind. destruct Hp as [HT Hc']. rewrite HT, Ht. split; assumption.
Qed.

Lemma ht_after_match {A} (m : Parser.PM A) (Q : A -> Parser.Parser -> Prop) :
  htriple G G m Q -> htriple G (moved_past T j false) m Q.
Proof. apply ht_conseq; [intros p [Hp _]; exact Hp | tauto]. Qed.

Lemma ht_previous_after_match :
  htriple G (moved_past T j true) Parser.previous (fun _ => G).
Proof.
  eapply ht_conseq; [| | exact ht_previous];
    [intros p [Hp H1]; split; [exact Hp | exact (H1 eq_refl)] | tauto].
Qed.

Lemma ht_op_token_to_binop (op : Token.Token) :
  htriple G G (lift (Parser.op_token_to_binop op)) (fun _ => G).
Proof.
  apply ht_lift. intros p Hp. unfold Parser.op_token_to_binop.
  destruct (Token.token_type op); exact Hp.
Qed.

Lemma ht_op_token_to_uniop (op : Token.Token) :
  htriple G G (lift (Parser.op_token_to_uniop op)) (fun _ => G).
Proof.
  apply ht_lift. intros p Hp. unfold Parser.op_token_to_uniop.
  destruct (Token.token_type op); exact Hp.
Qed.

Section Operand.
Variable operand : Parser.PM Expr.t.
Hypothesis Hoperand : htriple G G operand (fun _ => G).

Lemma ht_binary_loop (ops : list Token.TokenType) (n : nat) :
  forall expr, htriple G G (Parser.binary_loop n ops operand expr) (fun _ => G).
Proof.
  induction n as [|n IH]; intros expr; cbn [Parser.binary_loop]; [apply ht_fuel|].
  eapply ht_bind; [apply ht_match_one_of|]. intros [|].
  - eapply ht_bind; [exact ht_previous_after_match|]. intros op.
    eapply ht_bind; [exact Hoperand|]. intros rhs.
    eapply ht_bind; [apply ht_op_token_to_binop|]. intros b. apply IH.
  - apply ht_ret. intros p [Hp _]. exact Hp.
Qed.

Lemma ht_binary_level (ops : list Token.TokenType) :
  htriple G G (Parser.binary_level ops operand) (fun _ => G).
Proof.
  unfold Parser.binary_level. eapply ht_bind; [exact Hoperand|]. intros expr.
  apply ht_state. intros p0 p [Hp _]. exact (ht_binary_loop ops _ expr p Hp).
Qed.

End Operand.

Lemma ht_equality (unary : Parser.PM Expr.t) :
  htriple G G unary (fun _ => G) -> htriple G G (Parser.equality unary) (fun _ => G).
Proof.
  intros Hu. unfold Parser.equality, Parser.comparison, Parser.term, Parser.factor.
  repeat apply ht_binary_level. exact Hu.
Qed.

Lemma ht_assignment (expression unary : Parser.PM Expr.t) :
  htriple G G expression (fun _ => G) -> htriple G G unary (fun _ => G) ->
  htriple G G (Parser.assignment expression unary) (fun _ => G).
Proof.
  intros He Hu. unfold Parser.assignment.
  eapply ht_bind; [apply ht_equality; exact Hu|]. intros expr.
  eapply ht_bind; [apply ht_matches|]. intros [|].
  - eapply ht_bind; [exact ht_previous_after_match|]. intros eq.
    eapply ht_bind; [exact He|]. intros value.
    destruct expr; first [apply ht_ret; tauto | apply ht_throw; tauto].
  - apply ht_ret. intros p [Hp _]. exact Hp.
Qed.

Ltac not_bounds := intros [Hm|Hm]; discriminate Hm.

Lemma ht_literal_case {A} (k : Token.Token -> Parser.PM A) :
  (forall t, htriple G G (k t) (fun _ => G)) ->
  htriple G (moved_past T j true) (prev <- Parser.previous ;; k prev) (fun _ => G).
Proof.
  intros Hk. eapply ht_bind; [exact ht_previous_after_match|]. exact Hk.
Qed.

Lemma ht_primary (expression : Parser.PM Expr.t) :
  htriple G G expression (fun _ => G) ->
  htriple G G (Parser.primary expression) (fun _ => G).
Proof.
  intros He. unfold Parser.primary.
  do 3 (eapply ht_bind; [apply ht_matches|]; intros [|];
        [apply ht_ret; intros p [Hp _]; exact Hp | apply ht_after_match]).
  do 3 (eapply ht_bind; [apply ht_matches|]; intros [|];
        [apply ht_literal_case; intros t;
         destruct (Token.literal t) as [[]|];
         first [apply ht_ret; tauto | apply ht_panic; not_bounds]
        | apply ht_after_match]).
  eapply ht_bind; [apply ht_matches|]; intros [|].
  - eapply ht_conseq; [intros p [Hp _]; exact Hp | intros a p H; exact H |].
    eapply ht_bind; [exact He|]. intros expr.
    eapply ht_bind; [apply ht_consume|]. intros t.
    apply ht_ret. intros p [Hp _]. exact Hp.
  - apply ht_after_match. eapply ht_bind; [exact ht_peek|]. intros t.
    apply ht_throw. tauto.
Qed.

Lemma ht_unary_step (unary expression : Parser.PM Expr.t) :
  htriple G G unary (fun _ => G) -> htriple G G expression (fun _ => G) ->
  htriple G G (Parser.unary_step unary expression) (fun _ => G).
Proof.
  intros Hu He. unfold Parser.unary_step.
  eapply ht_bind; [apply ht_match_one_of|]. intros [|].
  - eapply ht_bind; [exact ht_previous_after_match|]. intros op.
    eapply ht_bind; [exact Hu|]. intros rhs.
    eapply ht_bind; [apply ht_op_token_to_uniop|]. intros u.
    apply ht_ret. intros p Hp. exact Hp.
  - apply ht_after_match. apply ht_primary. exact He.
Qed.

Lemma ht_expression (n : nat) :
  htriple G G (Parser.expression n) (fun _ => G) /\ htriple G G (Parser.unary n) (fun _ => G).
Proof.
  induction n as [|n [He Hu]]; cbn [Parser.expression Parser.unary].
  - split; apply ht_fuel.
  - split; [apply ht_assignment | apply ht_unary_step]; assumption.
Qed.

Lemma ht_expression_top : htriple G G Parser.expression_top (fun _ => G).
Proof.
  unfold Parser.expression_top. apply ht_state. intros p0 p [Hp _].
  exact (proj1 (ht_expression _) p Hp).
Qed.

Lemma ht_consume_G (k : Token.TokenType) (msg : string) :
  htriple G G (Parser.consume k msg) (fun _ => G).
Proof.
  eapply ht_conseq; [| | apply ht_consume]; [intros p Hp; exact Hp | intros a p [Hp _]; exact Hp].
Qed.

Lemma ht_from_match {A} (b : bool) (m : Parser.PM A) :
  htriple G G m (fun _ => G) -> htriple G (moved_past T j b) m (fun _ => G).
Proof. apply ht_conseq; [intros p [Hp _]; exact Hp | tauto]. Qed.

Lemma ht_var_declaration : htriple G G Parser.var_declaration (fun _ => G).
Proof.
  unfold Parser.var_declaration.
  eapply ht_bind; [apply ht_consume|]. intros nm.
  eapply ht_conseq; [intros p [Hp _]; exact Hp | intros a p H; exact H |].
  apply ht_bind with (R := fun _ => G).
  { eapply ht_bind; [apply ht_matches|]. intros b. apply ht_from_match. destruct b.
    - apply ht_bind with (R := fun _ => G); [exact ht_expression_top|].
      intros e. apply ht_ret. intros p Hp. exact Hp.
    - apply ht_ret. intros p Hp. exact Hp. }
  intros init.
  apply ht_bind with (R := fun o p => G p /\ match o with Ok _ | Err _ => True | _ => False end).
  { apply ht_capture, ht_consume_G. }
  intros o. apply ht_ret. intros p [Hp _]. exact Hp.
Qed.

(** [print_statement] and [expression_statement] share this shape. *)
Lemma ht_captured_statement (mk : Expr.t -> Stmt.t) :
  htriple G G (val <- capture Parser.expression_top ;;
               _ <- Parser.consume Token.Semicolon "Expected ';'" ;;
               v <- unwrap val ;;
               ret (mk v)) (fun _ => G).
Proof.
  apply ht_bind with (R := fun o p => G p /\ match o with Ok _ | Err _ => True | _ => False end).
  { apply ht_capture, ht_expression_top. }
  intros val. apply ht_pure. intros Hval.
  apply ht_bind with (R := fun _ => G); [apply ht_consume_G|]. intros _.
  apply ht_bind with (R := fun _ => G).
  { apply ht_unwrap; [exact Hval | intros a p _ Hp; exact Hp]. }
  intros v. apply ht_ret. intros p Hp. exact Hp.
Qed.

Lemma ht_declaration : htriple G G Parser.declaration (fun _ => G).
Proof.
  unfold Parser.declaration.
  eapply ht_bind; [apply ht_matches|]. intros b. apply ht_from_match. destruct b.
  - exact ht_var_declaration.
  - unfold Parser.statement.
    eapply ht_bind; [apply ht_matches|]. intros b. apply ht_from_match. destruct b.
    + apply ht_captured_statement.
    + apply ht_captured_statement.
Qed.

Lemma ht_parse_loop (n : nat) :
  forall stmts, htriple G G (Parser.parse_loop n stmts) (fun _ => G).
Proof.
  induction n as [|n IH]; intros stmts; cbn [Parser.parse_loop]; [apply ht_fuel|].
  apply ht_bind with (R := fun _ => G); [exact ht_is_at_end|]. intros [|].
  - apply ht_ret. intros p Hp. exact Hp.
  - apply ht_bind with (R := fun _ => G); [exact ht_declaration|]. intros st. apply IH.
Qed.

Lemma ht_parse_stmts : htriple G G Parser.parse_stmts (fun _ => G).
Proof.
  unfold Parser.parse_stmts. apply ht_state. intros p0 p [Hp _].
  exact (ht_parse_loop _ [] p Hp).
Qed.

Lemma parse_first_eof (msg : string) : Parser.parse T = Panic msg -> ~ bounds_panic msg.
Proof.
  intros Hpar. unfold Parser.parse in Hpar.
  assert (H0 : G (Parser.mkParser T 0)) by (split; cbn; [reflexivity | lia]).
  pose proof (ht_parse_stmts _ H0) as H.
  destruct (Parser.parse_stmts (Parser.mkParser T 0)) as [p [r|e|m|]]; try discriminate.
  - rewrite (is_at_end_run p H) in Hpar.
    destruct (Parser.pcurrent p =? j)%nat; [discriminate|].
    destruct (in_bounds_token p H) as [t [Ht _]].
    destruct H as [HT _]. rewrite HT, Ht in Hpar. discriminate.
  - injection Hpar as ->. exact H.
Qed.

End Bounds.

Lemma first_eof (T : list Token.Token) :
  In Token.Eof (map Token.token_type T) ->
  exists j eof, nth_error T j = Some eof /\ Token.token_type eof = Token.Eof /\
    forall i t, (i < j)%nat -> nth_error T i = Some t -> Token.token_type t <> Token.Eof.
Proof.
  induction T as [|t T IH]; cbn; [tauto|]. intros Hin.
  destruct (Token.TokenType_eq_dec (Token.token_type t) Token.Eof) as [E|E].
  - exists 0%nat, t. split; [reflexivity|]. split; [exact E|]. intros i u Hi. lia.
  - destruct Hin as [Hin|Hin]; [congruence|].
    destruct (IH Hin) as [j [eof [Hj [He Hf]]]].
    exists (S j), eof. split; [exact Hj|]. split; [exact He|].
    intros [|i] u Hi Hu; cbn in Hu.
    + injection Hu as <-. exact E.
    + apply (Hf i); [lia | exact Hu].
Qed.

(** X14: [parse] indexes [tokens] only below its first [Eof]: on a token
    vector containing [Eof] it never panics out of bounds or on
    [current - 1]. *)
Theorem parse_no_bounds_panic (T : list Token.Token) (msg : string) :
  In Token.Eof (map Token.token_type T) ->
  Parser.parse T = Panic msg ->
  msg <> oob_msg /\ msg <> "attempt to subtract with overflow".
Proof.
  intros Hin Hpar. destruct (first_eof T Hin) as [j [eof [Hj [He Hf]]]].
  pose proof (parse_first_eof T j eof Hj He Hf msg Hpar) as H.
  unfold bounds_panic in H. tauto.
Qed.


(* ------------------------------------------------------------------ *)
(** ** Witnesses of the properties *)


Lemma declare_assign_print_witness :
  interpret_expr (num 1) (env (mkState empty_env [])) = (empty_env, Ok (Value.Number 1))
  /\ interpret_expr (Expr.Binary (Expr.Var sym_x) (binop BinOpType.Add 12) (num 2))
       (define empty_env sym_x (Some (Value.Number 1)))
     = (define empty_env sym_x (Some (Value.Number 1)), Ok (Value.Number 3))
  /\ interpret_stmts
       [Stmt.VarDeclaration sym_x (Some (num 1));
        Stmt.Expression (Expr.Assignment sym_x
          (Expr.Binary (Expr.Var sym_x) (binop BinOpType.Add 12) (num 2)));
        Stmt.Print (Expr.Var sym_x)] (mkState empty_env [])
     = (mkState (define (define empty_env sym_x (Some (Value.Number 1))) sym_x
                        (Some (Value.Number 3)))
                ([] ++ [Value.Number 3])%list, Ok tt).
Proof.
  split; [vm_compute; reflexivity|]. split; [vm_compute; reflexivity|].
  apply (declare_assign_print (mkState empty_env []) sym_x (num 1)
           (Expr.Binary (Expr.Var sym_x) (binop BinOpType.Add 12) (num 2))
           empty_env (define empty_env sym_x (Some (Value.Number 1)))
           (Value.Number 1) (Value.Number 3)); vm_compute; reflexivity.
Defined.

Lemma scan_ends_with_single_eof_witness :
  let toks := match Scanner.scan (fun _ => 0%float) "(1)" with Ok ts => ts | _ => [] end in
  Scanner.scan (fun _ => 0%float) "(1)" = Ok toks
  /\ exists body eof, toks = (body ++ [eof])%list /\ Scanner.token_type eof = Scanner.Eof
     /\ Forall (fun t => scanned_kind (Scanner.token_type t) = true) body.
Proof.
  cbv zeta. split; [vm_compute; reflexivity|].
  apply (scan_ends_with_single_eof (fun _ => 0%float) "(1)"). vm_compute. reflexivity.
Defined.

Lemma scan_rejects_leading_letter_witness :
  is_ascii_alphabetic "x" = true
  /\ (forall toks, Scanner.scan (fun _ => 0%float) "x1" <> Ok toks).
Proof.
  split; [reflexivity|]. intros toks.
  apply (scan_rejects_leading_letter (fun _ => 0%float) "x" "1" toks). reflexivity.
Defined.

Lemma scan_numeral_witness :
  ["1"; "2"]%char <> []
  /\ Forall (fun c => Scanner.is_ascii_digit c = true) ["1"; "2"]%char
  /\ Scanner.scan (fun _ => 0%float) "12"
     = Ok [Scanner.mkToken Scanner.Int ["1"; "2"]%char (Some (Scanner.LInt 12)) 1 1;
           Scanner.mkToken Scanner.Eof [] None 1 1].
Proof.
  split; [discriminate|]. split; [repeat constructor|].
  exact (scan_numeral (fun _ => 0%float) ["1"; "2"]%char ltac:(discriminate)
           ltac:(repeat constructor)).
Defined.

Lemma scan_string_literal_witness :
  Forall string_char_ok ["a"; "b"]%char
  /\ Scanner.scan (fun _ => 0%float) (string_of_list_ascii [Scanner.quote; "a"; "b"; Scanner.quote]%char)
     = Ok [Scanner.mkToken Scanner.String [Scanner.quote; "a"; "b"; Scanner.quote]%char
             (Some (Scanner.Str "ab")) 1 3;
           Scanner.mkToken Scanner.Eof [] None 1 3].
Proof.
  assert (H : Forall string_char_ok ["a"; "b"]%char)
    by (repeat constructor).
  split; [exact H|].
  exact (scan_string_literal (fun _ => 0%float) ["a"; "b"]%char H).
Defined.

Lemma scan_unterminated_comment_panics_witness :
  Forall (fun c => Ascii.eqb c Scanner.newline = false) ["a"; "b"]%char
  /\ Scanner.scan (fun _ => 0%float) "//ab" = Panic oob_msg.
Proof.
  assert (H : Forall (fun c => Ascii.eqb c Scanner.newline = false) ["a"; "b"]%char)
    by (repeat constructor).
  split; [exact H|].
  exact (scan_unterminated_comment_panics (fun _ => 0%float) ["a"; "b"]%char H).
Defined.

Lemma scan_blank_input_witness :
  Forall (fun c => is_blank c = true) [" "; Scanner.newline]%char
  /\ exists col, Scanner.scan (fun _ => 0%float) (string_of_list_ascii [" "; Scanner.newline]%char)
                 = Ok [Scanner.mkToken Scanner.Eof [] None 2 col].
Proof.
  assert (H : Forall (fun c => is_blank c = true) [" "; Scanner.newline]%char)
    by (repeat constructor).
  split; [exact H|].
  exact (scan_blank_input (fun _ => 0%float) [" "; Scanner.newline]%char H).
Defined.

Lemma parse_discards_expression_error_witness :
  ~ In (Token.token_type rparen_tok) (Token.Var :: Token.Print :: Token.Eof :: expression_starts)
  /\ Parser.parse [rparen_tok; eof_tok 1]
     = Err (Parser.TokenMismatch Token.Semicolon rparen_tok (Some "Expected ';'")).
Proof.
  assert (H : ~ In (Token.token_type rparen_tok)
                (Token.Var :: Token.Print :: Token.Eof :: expression_starts)).
  { cbn. intros H. repeat (destruct H as [H|H]; [discriminate H|]). exact H. }
  split; [exact H|].
  exact (parse_discards_expression_error rparen_tok [eof_tok 1] H).
Defined.

Lemma parse_no_bounds_panic_witness :
  In Token.Eof (map Token.token_type [tok Token.Semicolon ";" None 0; eof_tok 1])
  /\ Parser.parse [tok Token.Semicolon ";" None 0; eof_tok 1]
     = Panic "called `Result::unwrap()` on an `Err` value"
  /\ "called `Result::unwrap()` on an `Err` value" <> oob_msg
  /\ "called `Result::unwrap()` on an `Err` value" <> "attempt to subtract with overflow".
Proof.
  assert (Hin : In Token.Eof (map Token.token_type [tok Token.Semicolon ";" None 0; eof_tok 1]))
    by (right; left; reflexivity).
  assert (Hp : Parser.parse [tok Token.Semicolon ";" None 0; eof_tok 1]
               = Panic "called `Result::unwrap()` on an `Err` value")
    by (vm_compute; reflexivity).
  split; [exact Hin|]. split; [exact Hp|].
  exact (parse_no_bounds_panic _ _ Hin Hp).
Defined.
